(** * make_website.py: template renderer and page builder

    A shallow embedding of [scripts/make_website.py] and the properties of
    its template renderer ([_render_template]), its context builder
    ([_page_context]) and its driver ([main]).

    Modelling conventions.
    - A Python [str] is a list of Unicode code points ([N]); the literals of
      the source are written with [lit].
    - A [dict[str, str]] is a [gmap str str].
    - A [pathlib.Path] (POSIX flavour) is its anchor (the number of leading
      slashes, 0, 1 or 2) and its list of components.
    - The file system is a finite map from paths to entries (a directory or
      a regular file with its decoded text).  Two distinct [Path] values
      denote two distinct files: components [..] and symbolic links are not
      resolved by the model.
    - Exceptions are values of [exn]; a computation returns an [outcome]
      together with the trace of the calls and file-system operations it
      performed, in order.
    - Files are readable and decode; the messages of the exceptions that
      Python itself raises ([OSError]s, the [ValueError] of [relative_to])
      follow CPython 3.12, file names being shown between quotes.
    - The recursion of [_render_template] is bounded by a fuel argument;
      [Diverge] is the outcome of a computation that ran out of fuel.  The
      renderer never runs out of a fuel larger than the number of entries
      of the file system ([render_terminates]), and more fuel does not
      change a run ([render_fuel_mono]). *)

From Stdlib Require Import String Ascii.
From stdpp Require Import gmap list fin_maps.

Open Scope N_scope.
Open Scope list_scope.

(** ** Strings *)

Abbreviation char := N (only parsing).
Abbreviation str := (list N) (only parsing).

(** The code points of an ASCII literal of the source. *)
Definition lit (s : string) : str :=
  map N_of_ascii (list_ascii_of_string s).

(** [str.isspace] on one code point, which is also the class [\s] of a
    [str] pattern: the characters whose bidirectional type is WS, B or S,
    or whose general category is Zs. *)
Definition isspace (c : char) : bool :=
  ((9 <=? c) && (c <=? 13)) || ((28 <=? c) && (c <=? 32))
  || (c =? 133) || (c =? 160) || (c =? 5760)
  || ((8192 <=? c) && (c <=? 8202))
  || (c =? 8232) || (c =? 8233) || (c =? 8239) || (c =? 8287)
  || (c =? 12288).

Definition is_alnum (c : char) : bool :=
  ((97 <=? c) && (c <=? 122)) || ((65 <=? c) && (c <=? 90))
  || ((48 <=? c) && (c <=? 57)).

(** The class [[a-zA-Z0-9_./-]] of [INCLUDE_RE]. *)
Definition is_path_char (c : char) : bool :=
  is_alnum c || (c =? 95) || (c =? 46) || (c =? 47) || (c =? 45).

(** The class [[a-zA-Z0-9_]] of [VAR_RE]. *)
Definition is_ident_char (c : char) : bool :=
  is_alnum c || (c =? 95).

(** [sep.join(xs)]. *)
Fixpoint join (sep : str) (xs : list str) : str :=
  match xs with
  | [] => []
  | [x] => x
  | x :: rest => x ++ sep ++ join sep rest
  end.

(** [s.split(sep)] for a one-character separator. *)
Fixpoint split_on (sep : char) (s : str) : list str :=
  match s with
  | [] => [[]]
  | c :: s' =>
      if c =? sep then [] :: split_on sep s'
      else match split_on sep s' with
           | [] => [[c]]
           | w :: ws => (c :: w) :: ws
           end
  end.

(** [s.rstrip()]: the longest suffix of whitespace is removed. *)
Fixpoint rstrip (s : str) : str :=
  match s with
  | [] => []
  | c :: s' =>
      match rstrip s' with
      | [] => if isspace c then [] else [c]
      | r => c :: r
      end
  end.

(** ** Regular expressions

    The fragment of [re] that the two patterns of the source use: literal
    characters, a greedy star over a character class, and one capturing
    group made of a greedy plus over a character class.  The matcher
    backtracks as [re] does: a repetition first takes as many characters as
    it can and gives them back one by one when the rest of the pattern
    fails. *)

Inductive re_node :=
| Chr (c : char)
| Star (cls : char -> bool)
| Group (cls : char -> bool).

Abbreviation pattern := (list re_node) (only parsing).

(** [re_match p s g]: match [p] at the start of [s]; [g] is the text
    captured so far.  The result is the captured group and the text that
    follows the match. *)
Fixpoint re_match (p : pattern) (s : str) (g : str) : option (str * str) :=
  match p with
  | [] => Some (g, s)
  | Chr c :: p' =>
      match s with
      | x :: s' => if x =? c then re_match p' s' g else None
      | [] => None
      end
  | Star cls :: p' =>
      (fix star (s : str) : option (str * str) :=
         match s with
         | x :: s' =>
             if cls x then
               match star s' with
               | Some r => Some r
               | None => re_match p' s g
               end
             else re_match p' s g
         | [] => re_match p' [] g
         end) s
  | Group cls :: p' =>
      (fix plus (s : str) (acc : str) : option (str * str) :=
         match s with
         | x :: s' =>
             if cls x then
               match plus s' (acc ++ [x]) with
               | Some r => Some r
               | None => re_match p' s' (acc ++ [x])
               end
             else None
         | [] => None
         end) s g
  end.

Definition chars (s : string) : pattern := map Chr (lit s).

(** [INCLUDE_RE = re.compile(r"\{\{\s*include:\s*([a-zA-Z0-9_./-]+)\s*\}\}")] *)
Definition INCLUDE_RE : pattern :=
  chars "{{" ++ [Star isspace] ++ chars "include:" ++ [Star isspace]
  ++ [Group is_path_char] ++ [Star isspace] ++ chars "}}".

(** [VAR_RE = re.compile(r"\{\{\s*([a-zA-Z0-9_]+)\s*\}\}")] *)
Definition VAR_RE : pattern :=
  chars "{{" ++ [Star isspace] ++ [Group is_ident_char] ++ [Star isspace]
  ++ chars "}}".

(** ** Paths (pathlib, POSIX flavour) *)

Record Path := mkPath { anchor : nat; parts : list str }.

#[global] Instance Path_eq_dec : EqDecision Path.
Proof. solve_decision. Defined.

#[global] Instance Path_countable : Countable Path.
Proof.
  refine (inj_countable' (fun p => (anchor p, parts p))
            (fun x => mkPath (fst x) (snd x)) _).
  intros []; reflexivity.
Defined.

Definition slash : char := 47.

Fixpoint leading_slashes (s : str) : nat :=
  match s with
  | c :: s' => if c =? slash then S (leading_slashes s') else O
  | [] => O
  end.

(** The root of a path string: exactly two leading slashes are kept, any
    other number of them is one root. *)
Definition parse_anchor (s : str) : nat :=
  match leading_slashes s with
  | 0%nat => 0%nat
  | 2%nat => 2%nat
  | _ => 1%nat
  end.

(** The components of a path string: empty components and [.] are dropped,
    [..] is kept. *)
Definition parse_parts (s : str) : list str :=
  filter (fun x => x <> [] /\ x <> lit ".") (split_on slash s).

(** [base / rel]: an absolute [rel] replaces [base]. *)
Definition joinpath (base : Path) (rel : str) : Path :=
  match parse_anchor rel with
  | 0%nat => mkPath (anchor base) (parts base ++ parse_parts rel)
  | a => mkPath a (parse_parts rel)
  end.

(** [str(p)] *)
Definition path_str (p : Path) : str :=
  match anchor p, parts p with
  | 0%nat, [] => lit "."
  | a, ps => concat (replicate a [slash]) ++ join [slash] ps
  end.

Fixpoint is_prefix (xs ys : list str) : bool :=
  match xs, ys with
  | [], _ => true
  | x :: xs', y :: ys' => bool_decide (x = y) && is_prefix xs' ys'
  | _ :: _, [] => false
  end.

(** [p.relative_to(other)]; [None] stands for the [ValueError] that pathlib
    raises when [p] does not lie under [other]. *)
Definition relative_to (p other : Path) : option Path :=
  if bool_decide (anchor p = anchor other) && is_prefix (parts other) (parts p)
  then Some (mkPath 0 (drop (length (parts other)) (parts p)))
  else None.

(** [p.parent] *)
Definition parent (p : Path) : Path :=
  mkPath (anchor p) (removelast (parts p)).

(** ** File system, exceptions, traces *)

Inductive entry :=
| Dir
| File (text : str).

Abbreviation FS := (gmap Path entry) (only parsing).

Inductive exn :=
| RuntimeError (msg : str)
| KeyError (msg : str)
| ValueError (msg : str)
| FileNotFoundError (msg : str)
| IsADirectoryError (msg : str)
| NotADirectoryError (msg : str).

Inductive event :=
| Enter (path : Path) (stack : list Path)   (* a call of _render_template *)
| ReadText (path : Path)                    (* path.read_text() *)
| WriteText (path : Path) (data : str)      (* path.write_text(data) *)
| Print (line : str).                       (* print(line) *)

Inductive outcome (A : Type) :=
| Ok (a : A)
| Raise (e : exn)
| Diverge.
Arguments Ok {A} a.
Arguments Raise {A} e.
Arguments Diverge {A}.

(** A computation: the trace of what it did and how it ended. *)
Definition M (A : Type) : Type := (list event * outcome A)%type.

Definition ret {A} (a : A) : M A := ([], Ok a).
Definition raise {A} (e : exn) : M A := ([], Raise e).
Definition tell (ev : event) : M unit := ([ev], Ok tt).
Definition bind {A B} (m : M A) (k : A -> M B) : M B :=
  match m with
  | (l, Ok a) => let '(l', r) := k a in (l ++ l', r)
  | (l, Raise e) => (l, Raise e)
  | (l, Diverge) => (l, Diverge)
  end.

Notation "'let*' x ':=' m 'in' k" := (bind m (fun x => k))
  (at level 10, x pattern, m at level 200, k at level 200).

Definition trace {A} (m : M A) : list event := fst m.
Definition result {A} (m : M A) : outcome A := snd m.

Fixpoint mapM {A B} (f : A -> M B) (xs : list A) : M (list B) :=
  match xs with
  | [] => ret []
  | x :: xs' =>
      let* y := f x in
      let* ys := mapM f xs' in
      ret (y :: ys)
  end.

(** A file name as an error message of Python shows it. *)
Definition quoted (s : str) : str := lit "'" ++ s ++ lit "'".

Definition os_error (what : string) (p : Path) : str :=
  lit what ++ lit ": " ++ quoted (path_str p).

(** The proper prefixes of a list, shortest first. *)
Fixpoint prefixes {A} (l : list A) : list (list A) :=
  match l with
  | [] => []
  | x :: l' => [] :: map (cons x) (prefixes l')
  end.

(** The directories that the system walks through to reach [p]. *)
Definition ancestors (p : Path) : list Path :=
  map (mkPath (anchor p)) (prefixes (parts p)).

(** One of the paths that lead to [p] is a regular file. *)
Definition below_file (fs : FS) (p : Path) : bool :=
  existsb (fun q => match fs !! q with
                    | Some (File _) => true
                    | _ => false
                    end)
          (ancestors p).

(** The error of opening a path that does not exist: [ENOTDIR] when the
    path lies below a regular file, [ENOENT] otherwise. *)
Definition absent_error (fs : FS) (path : Path) : exn :=
  if below_file fs path then
    NotADirectoryError (os_error "[Errno 20] Not a directory" path)
  else
    FileNotFoundError (os_error "[Errno 2] No such file or directory" path).

(** [path.read_text()] *)
Definition read_text (fs : FS) (path : Path) : M str :=
  let* _ := tell (ReadText path) in
  match fs !! path with
  | Some (File text) => ret text
  | Some Dir =>
      raise (IsADirectoryError (os_error "[Errno 21] Is a directory" path))
  | None => raise (absent_error fs path)
  end.

(** [path.exists()]: false also for a path below a regular file. *)
Definition path_exists (fs : FS) (path : Path) : bool :=
  match fs !! path with
  | Some _ => true
  | None => false
  end.

(** [path.write_text(data)]: the file is created or overwritten; its
    directory must exist.  Without the directory the error is that of a
    path that does not exist. *)
Definition write_text (fs : FS) (path : Path) (data : str) : M FS :=
  match fs !! path with
  | Some Dir =>
      raise (IsADirectoryError (os_error "[Errno 21] Is a directory" path))
  | _ =>
      match fs !! parent path with
      | Some Dir =>
          let* _ := tell (WriteText path data) in
          ret (<[path := File data]> fs)
      | Some (File _) =>
          raise (NotADirectoryError
                   (os_error "[Errno 20] Not a directory" path))
      | None => raise (absent_error fs path)
      end
  end.

(** ** re.sub with a function as replacement

    [sub_from p repl skip s] scans [s] from left to right.  While [skip] is
    positive the characters belong to a match that is already replaced.
    Otherwise [p] is tried at the current position: a match is replaced by
    what [repl] returns for its group (the returned text is not scanned
    again) and the scan resumes after the match; without a match the
    character is copied.  An exception raised by [repl] ends the scan.
    Both patterns of the source start with a literal brace, so a match is
    never empty. *)
Fixpoint sub_from (p : pattern) (repl : str -> M str) (skip : nat) (s : str)
  : M str :=
  match s with
  | [] => ret []
  | c :: s' =>
      match skip with
      | S k => sub_from p repl k s'
      | O =>
          match re_match p s [] with
          | Some (g, rest) =>
              let* r := repl g in
              let* out := sub_from p repl (length s' - length rest) s' in
              ret (r ++ out)
          | None =>
              let* out := sub_from p repl 0 s' in
              ret (c :: out)
          end
      end
  end.

Definition sub (p : pattern) (repl : str -> M str) (s : str) : M str :=
  sub_from p repl 0 s.

(** [p.findall(s)]: the groups of the matches that [sub] replaces. *)
Fixpoint findall_from (p : pattern) (skip : nat) (s : str) : list str :=
  match s with
  | [] => []
  | c :: s' =>
      match skip with
      | S k => findall_from p k s'
      | O =>
          match re_match p s [] with
          | Some (g, rest) => g :: findall_from p (length s' - length rest) s'
          | None => findall_from p 0 s'
          end
      end
  end.

Definition findall (p : pattern) (s : str) : list str := findall_from p 0 s.

(** ** The script *)

Section make_website.

(** [ROOT_DIR = Path(__file__).resolve().parent.parent]: where the
    repository lies on the machine. *)
Variable ROOT_DIR : Path.

Definition TEMPLATES_DIR : Path := joinpath ROOT_DIR (lit "templates").

(** [str(p.relative_to(base))]: [relative_to] raises a [ValueError] for a
    path that is not under [base]. *)
Definition rel_str (base p : Path) : M str :=
  match relative_to p base with
  | Some r => ret (path_str r)
  | None =>
      raise (ValueError (quoted (path_str p)
                           ++ lit " is not in the subpath of "
                           ++ quoted (path_str base)))
  end.

(** The closure [var_replacer] of a call, applied to the group of a
    match. *)
Definition var_replacer (context : gmap str str) (path : Path) (key : str)
  : M str :=
  match context !! key with
  | None =>
      raise (KeyError (lit "Missing template variable '" ++ key
                         ++ lit "' for " ++ path_str path))
  | Some v => ret v
  end.

(** [_render_template(path, context, stack)].  The call is recorded in the
    trace with its stack.  A path that is on the stack ends the call with
    the cycle error, whose message is built from the paths of the stack and
    [path], each made relative to the template root.  Otherwise the file is
    read, its include directives are replaced from left to right by the
    render of the included file, with [path] pushed on the stack, and then
    the placeholders of the resulting text are replaced by their values. *)
Fixpoint _render_template (fuel : nat) (fs : FS) (path : Path)
    (context : gmap str str) (stack : list Path) : M str :=
  match fuel with
  | O => ([], Diverge)
  | S fuel' =>
      let* _ := tell (Enter path stack) in
      if bool_decide (path ∈ stack) then
        let* names := mapM (rel_str TEMPLATES_DIR) (stack ++ [path]) in
        let chain := join (lit " -> ") names in
        raise (RuntimeError (lit "Template include cycle detected: " ++ chain))
      else
        let* text := read_text fs path in
        let include_replacer (include_rel : str) : M str :=
          let include_path := joinpath TEMPLATES_DIR include_rel in
          if path_exists fs include_path then
            _render_template fuel' fs include_path context (stack ++ [path])
          else
            raise (FileNotFoundError
                     (lit "Missing included template: "
                        ++ path_str include_path)) in
        let* text := sub INCLUDE_RE include_replacer text in
        sub VAR_RE (var_replacer context path) text
  end.

(** The replacement function of the include pass, for the statements. *)
Definition include_replacer (fuel' : nat) (fs : FS) (path : Path)
    (context : gmap str str) (stack : list Path) (include_rel : str) : M str :=
  let include_path := joinpath TEMPLATES_DIR include_rel in
  if path_exists fs include_path then
    _render_template fuel' fs include_path context (stack ++ [path])
  else
    raise (FileNotFoundError
             (lit "Missing included template: " ++ path_str include_path)).

(** ** The page builder *)

(** The two strings of [current_attrs]; the first one holds double
    quotes. *)
Definition dquote : str := [34].
Definition aria_current : str :=
  lit " aria-current=" ++ dquote ++ lit "page" ++ dquote.
Definition w_current : str := lit " w--current".

(** The closure [current_attrs] of [_page_context], which captures
    [current]. *)
Definition current_attrs (current name : str) : str * str :=
  if bool_decide (name = current) then (aria_current, w_current)
  else ([], []).

Definition _page_context (asset_prefix page_title page_description
    current : str) : gmap str str :=
  let '(nav_brand_aria, nav_brand_current_class) :=
    current_attrs current (lit "home") in
  let '(nav_home_aria, nav_home_current_class) :=
    current_attrs current (lit "home") in
  let '(nav_motorists_aria, nav_motorists_current_class) :=
    current_attrs current (lit "motorists") in
  let '(nav_law_aria, nav_law_current_class) :=
    current_attrs current (lit "law") in
  let '(footer_brand_aria, footer_brand_current_class) :=
    current_attrs current (lit "home") in
  let '(footer_home_aria, footer_home_current_class) :=
    current_attrs current (lit "home") in
  let '(footer_motorists_aria, footer_motorists_current_class) :=
    current_attrs current (lit "motorists") in
  let '(footer_law_aria, footer_law_current_class) :=
    current_attrs current (lit "law") in
  list_to_map [
    (lit "asset_prefix", asset_prefix);
    (lit "page_title", page_title);
    (lit "page_description", page_description);
    (lit "page_og_title", page_title);
    (lit "page_og_description", page_description);
    (lit "page_twitter_title", page_title);
    (lit "page_twitter_description", page_description);
    (lit "nav_brand_aria", nav_brand_aria);
    (lit "nav_brand_current_class", nav_brand_current_class);
    (lit "nav_home_aria", nav_home_aria);
    (lit "nav_home_current_class", nav_home_current_class);
    (lit "nav_motorists_aria", nav_motorists_aria);
    (lit "nav_motorists_current_class", nav_motorists_current_class);
    (lit "nav_law_aria", nav_law_aria);
    (lit "nav_law_current_class", nav_law_current_class);
    (lit "footer_brand_aria", footer_brand_aria);
    (lit "footer_brand_current_class", footer_brand_current_class);
    (lit "footer_home_aria", footer_home_aria);
    (lit "footer_home_current_class", footer_home_current_class);
    (lit "footer_motorists_aria", footer_motorists_aria);
    (lit "footer_motorists_current_class", footer_motorists_current_class);
    (lit "footer_law_aria", footer_law_aria);
    (lit "footer_law_current_class", footer_law_current_class)
  ].

Record page := mkPage {
  template : Path;
  output : Path;
  context : gmap str str
}.

Definition pages : list page := [
  mkPage (joinpath TEMPLATES_DIR (lit "pages/home.html"))
         (joinpath ROOT_DIR (lit "index.html"))
         (_page_context
            []
            (lit "Traafik - Traffic Stops Reimagined")
            (lit "Traafik's patented enterprise software represents a game-changing leap "
               ++ lit "forward in technology, with unprecedented digital interaction between "
               ++ lit "Motorists and Law Enforcement.")
            (lit "home"));
  mkPage (joinpath TEMPLATES_DIR (lit "pages/motorists.html"))
         (joinpath ROOT_DIR (lit "motorists/index.html"))
         (_page_context
            (lit "../")
            (lit "Traafik - Motorist")
            (lit "Police agencies need a better approach to ensuring the safety of "
               ++ lit "citizens during routine traffic stops. Digital interaction.")
            (lit "motorists"));
  mkPage (joinpath TEMPLATES_DIR (lit "pages/law_enforcement.html"))
         (joinpath ROOT_DIR (lit "law-enforcement/index.html"))
         (_page_context
            (lit "../")
            (lit "Traafik - Law Enforcement")
            (lit "Smarter Technology for Law Enforcement")
            (lit "law"))
].

Definition newline : str := [10].

(** The body of the loop of [main] for one page. *)
Definition build_page (fuel : nat) (fs : FS) (pg : page) : M FS :=
  let* text := _render_template fuel fs (template pg) (context pg) [] in
  let rendered := rstrip text ++ newline in
  let* fs' := write_text fs (output pg) rendered in
  let* rel_out := rel_str ROOT_DIR (output pg) in
  let* rel_tpl := rel_str ROOT_DIR (template pg) in
  let* _ := tell (Print (lit "Rendered " ++ rel_out ++ lit " from " ++ rel_tpl)) in
  ret fs'.

Fixpoint build_pages (fuel : nat) (fs : FS) (ps : list page) : M FS :=
  match ps with
  | [] => ret fs
  | pg :: rest =>
      let* fs' := build_page fuel fs pg in
      build_pages fuel fs' rest
  end.

Definition main (fuel : nat) (fs : FS) : M FS := build_pages fuel fs pages.

End make_website.

(** ** Auxiliary notions of the statements *)

(** The name of a path in the cycle message. *)
Definition rel_name (base p : Path) : str :=
  match relative_to p base with
  | Some r => path_str r
  | None => []
  end.

(** The events of a computation that only reads. *)
Definition is_read_event (ev : event) : Prop :=
  match ev with
  | Enter _ _ | ReadText _ => True
  | _ => False
  end.

(** [s] does not start with a character of the class. *)
Definition stops (cls : char -> bool) (s : str) : Prop :=
  match s with
  | x :: _ => cls x = false
  | [] => True
  end.

(** ** Example data

    A repository at [/srv/site] and some template trees. *)

Definition ex_root : Path := mkPath 1 [lit "srv"; lit "site"].

Definition tpl (name : string) : Path :=
  joinpath (TEMPLATES_DIR ex_root) (lit name).

(** [a.html] includes itself; [b.html] and [c.html] include each other. *)
Definition fs_cycles : gmap Path entry := list_to_map [
  (tpl "a.html", File (lit "x{{include: a.html}}y"));
  (tpl "b.html", File (lit "[{{ include: c.html }}]"));
  (tpl "c.html", File (lit "<{{include: b.html}}>"))
].

(** A template of the tree includes a file by its absolute path, outside
    the template root, and that file includes itself. *)
Definition fs_outside : gmap Path entry := list_to_map [
  (tpl "e.html", File (lit "{{include: /tmp/loop.html}}"));
  (mkPath 1 [lit "tmp"; lit "loop.html"],
   File (lit "{{include: /tmp/loop.html}}"))
].

(** ** Navigation entries of a page context *)

Definition nav_items : list str :=
  [lit "brand"; lit "home"; lit "motorists"; lit "law"].

Definition nav_regions : list str := [lit "nav_"; lit "footer_"].

Definition aria_key (region item : str) : str := region ++ item ++ lit "_aria".
Definition class_key (region item : str) : str :=
  region ++ item ++ lit "_current_class".

(** The two entries of [item] in [region] when the item is selected by
    comparing [name] with the current identifier of the page. *)
Definition nav_entries (c : gmap str str) (region item name current : str)
  : Prop :=
  c !! aria_key region item
    = Some (if bool_decide (name = current) then aria_current else [])
  /\ c !! class_key region item
    = Some (if bool_decide (name = current) then w_current else []).

(** The identifier that the source compares with [current] for an item:
    the brand link leads to the home page. *)
Definition nav_target (item : str) : str :=
  if bool_decide (item = lit "brand") then lit "home" else item.

(** The context of the first page of [main], the home page, whose current
    identifier is [home]. *)
Definition home_context : gmap str str :=
  match pages ex_root with
  | pg :: _ => context pg
  | [] => ∅
  end.

(** ** Shape of a written page *)


(** A site whose three page templates share a header. *)
Definition fs_site : gmap Path entry := list_to_map [
  (ex_root, Dir);
  (joinpath ex_root (lit "motorists"), Dir);
  (joinpath ex_root (lit "law-enforcement"), Dir);
  (tpl "pages/home.html",
   File (lit "{{include: partials/head.html}}<h1>Home</h1>  " ++ newline ++ newline));
  (tpl "pages/motorists.html",
   File (lit "{{include: partials/head.html}}<h1>Motorists</h1>"));
  (tpl "pages/law_enforcement.html",
   File (lit "{{include: partials/head.html}}<h1>Law</h1>" ++ newline));
  (tpl "partials/head.html",
   File (lit "<title>{{ page_title }}</title><a{{nav_home_aria}}>Home</a>"))
].


(** [Built ROOT_DIR fuel fs ps ws fs']: the pages [ps] are written one
    after the other, each with the text that the renderer returns for its
    template and its context in the file system that the pages before it
    have left, stripped on the right and followed by one newline; [ws] are
    the output paths with the texts written and [fs'] is the file system
    after the last page. *)
Inductive Built (ROOT_DIR : Path) (fuel : nat)
  : gmap Path entry -> list page -> list (Path * str) -> gmap Path entry
    -> Prop :=
| Built_nil fs : Built ROOT_DIR fuel fs [] [] fs
| Built_cons fs pg ps text ws fs' :
    result (_render_template ROOT_DIR fuel fs (template pg) (context pg) [])
      = Ok text ->
    Built ROOT_DIR fuel (<[output pg := File (rstrip text ++ newline)]> fs)
      ps ws fs' ->
    Built ROOT_DIR fuel fs (pg :: ps)
      ((output pg, rstrip text ++ newline) :: ws) fs'.

Definition is_ok {A} (o : outcome A) : bool :=
  match o with
  | Ok _ => true
  | _ => false
  end.

(** ** The two kinds of markers, in the words of the template format *)

Definition all_in (cls : char -> bool) (s : str) : Prop :=
  Forall (fun c => cls c = true) s.

Definition lbrace : char := 123.
Definition rbrace : char := 125.

(** [ph] is a variable placeholder for the identifier [k]: two opening
    braces, optional whitespace, a non-empty identifier, optional
    whitespace, two closing braces. *)
Definition is_placeholder (k ph : str) : Prop :=
  exists w1 w2,
    ph = [lbrace; lbrace] ++ w1 ++ k ++ w2 ++ [rbrace; rbrace] /\
    all_in isspace w1 /\ all_in isspace w2 /\
    k <> [] /\ all_in is_ident_char k.

(** [d] is an include directive for the relative path [rel]. *)
Definition is_include_directive (rel d : str) : Prop :=
  exists w1 w2 w3,
    d = [lbrace; lbrace] ++ w1 ++ lit "include:" ++ w2 ++ rel ++ w3
          ++ [rbrace; rbrace] /\
    all_in isspace w1 /\ all_in isspace w2 /\ all_in isspace w3 /\
    rel <> [] /\ all_in is_path_char rel.

(** [marker] occurs somewhere in [text]. *)
Definition occurs_in (marker text : str) : Prop :=
  exists pre post, text = pre ++ marker ++ post.

(** The text has no include directive. *)
Definition no_include (text : str) : Prop :=
  forall rel d, is_include_directive rel d -> ~ occurs_in d text.

(** [Substituted ctx text out]: [out] is [text] with every placeholder,
    from left to right, replaced by the value of its identifier in [ctx],
    and every other character kept. *)
Inductive Substituted (ctx : gmap str str) : str -> str -> Prop :=
| Subst_nil : Substituted ctx [] []
| Subst_var k ph rest v out :
    is_placeholder k ph ->
    ctx !! k = Some v ->
    Substituted ctx rest out ->
    Substituted ctx (ph ++ rest) (v ++ out)
| Subst_chr c rest out :
    (forall k ph tl, is_placeholder k ph -> c :: rest <> ph ++ tl) ->
    Substituted ctx rest out ->
    Substituted ctx (c :: rest) (c :: out).

(** Templates for the renderer: a page with one placeholder, a page whose
    context value looks like a placeholder, and pages with a broken
    reference. *)
Definition fs_pages : gmap Path entry := list_to_map [
  (tpl "page.html", File (lit "Hello {{name}}!"));
  (tpl "value.html", File (lit "<{{a}}>{{other}}"));
  (tpl "part.html", File (lit "P"));
  (tpl "novar.html", File (lit "{{include: part.html}} and {{ nokey }}"));
  (tpl "noinc.html",
   File (lit "A{{include: part.html}}B{{include: gone.html}}C"));
  (tpl "bad.html", File (lit "{{undefined}}"));
  (tpl "first.html",
   File (lit "{{include: bad.html}}{{include: gone.html}}"))
].

Definition ctx_hello : gmap str str :=
  list_to_map [(lit "name", lit "World")].

Definition ctx_value : gmap str str :=
  list_to_map [(lit "a", lit "{{other}}"); (lit "other", lit "X")].

(** ** The render stack and the include graph *)

(** A call whose stack has no path twice; when it passes the cycle check,
    the stack with its own path has no path twice either. *)
Definition distinct_stack (ev : event) : Prop :=
  match ev with
  | Enter p st => NoDup st /\ (p ∉ st -> NoDup (st ++ [p]))
  | _ => True
  end.

(** A call that does not take the cycle branch. *)
Definition no_cycle_event (ev : event) : Prop :=
  match ev with
  | Enter p st => p ∉ st
  | _ => True
  end.

(** The exceptions that the cycle branch raises. *)
Definition is_cycle_exn (e : exn) : Prop :=
  match e with
  | RuntimeError _ | ValueError _ => True
  | _ => False
  end.

(** [includes ROOT_DIR fs p q]: the file [p] has an include directive whose
    path, resolved against the template root, is [q]. *)
Definition includes (ROOT_DIR : Path) (fs : gmap Path entry) (p q : Path)
  : Prop :=
  exists text rel d,
    fs !! p = Some (File text) /\
    is_include_directive rel d /\ occurs_in d text /\
    q = joinpath (TEMPLATES_DIR ROOT_DIR) rel.

(** No template that can be reached from [root] includes itself, directly
    or through other templates. *)
Definition acyclic_from (ROOT_DIR : Path) (fs : gmap Path entry)
    (root : Path) : Prop :=
  forall q, rtc (includes ROOT_DIR fs) root q ->
            ~ tc (includes ROOT_DIR fs) q q.

(** The files read in a trace, in order. *)
Definition reads_in (tr : list event) : list Path :=
  omap (fun ev => match ev with ReadText p => Some p | _ => None end) tr.

(** The expansion of a template, without stack and without cache.
    [Rendered ROOT_DIR fs ctx p out reads]: [p] is a regular file; [out] is
    its text with every include directive, from left to right, replaced by
    the expansion of the file it names (resolved against the template
    root), and then every placeholder replaced by its value; [reads] are
    the files read, [p] first and then, for each directive in turn, the
    files read for it, so that a file included twice is read twice.
    [Expanded] is the replacement of the directives of a text. *)
Inductive Rendered (ROOT_DIR : Path) (fs : gmap Path entry)
    (ctx : gmap str str) : Path -> str -> list Path -> Prop :=
| Rendered_file p text text' out reads :
    fs !! p = Some (File text) ->
    Expanded ROOT_DIR fs ctx text text' reads ->
    Substituted ctx text' out ->
    Rendered ROOT_DIR fs ctx p out (p :: reads)
with Expanded (ROOT_DIR : Path) (fs : gmap Path entry)
    (ctx : gmap str str) : str -> str -> list Path -> Prop :=
| Expanded_nil : Expanded ROOT_DIR fs ctx [] [] []
| Expanded_include rel d rest r out reads1 reads2 :
    is_include_directive rel d ->
    Rendered ROOT_DIR fs ctx (joinpath (TEMPLATES_DIR ROOT_DIR) rel) r reads1 ->
    Expanded ROOT_DIR fs ctx rest out reads2 ->
    Expanded ROOT_DIR fs ctx (d ++ rest) (r ++ out) (reads1 ++ reads2)
| Expanded_chr c rest out reads :
    (forall rel d tl, is_include_directive rel d -> c :: rest <> d ++ tl) ->
    Expanded ROOT_DIR fs ctx rest out reads ->
    Expanded ROOT_DIR fs ctx (c :: rest) (c :: out) reads.

Scheme Rendered_mut := Minimality for Rendered Sort Prop
  with Expanded_mut := Minimality for Expanded Sort Prop.

(** The stack of a call is a chain of includes from [root] that ends at
    its path. *)
Definition chain_to (ROOT_DIR : Path) (fs : gmap Path entry) (root : Path)
    (stack : list Path) (path : Path) : Prop :=
  rtc (includes ROOT_DIR fs) root path /\
  forall q, q ∈ stack -> tc (includes ROOT_DIR fs) q path.

(** The renderer, called for [p] with a stack that is a chain of includes
    from [root], returns [out] and reads [reads], for every amount of fuel
    from some amount on. *)
Definition renders_as (ROOT_DIR : Path) (fs : gmap Path entry)
    (ctx : gmap str str) (root p : Path) (out : str) (reads : list Path)
  : Prop :=
  forall stack, chain_to ROOT_DIR fs root stack p ->
  exists n tr, reads_in tr = reads /\
    forall m, (n <= m)%nat ->
      _render_template ROOT_DIR m fs p ctx stack = (tr, Ok out).

(** The same for the include pass over [text], the rest of the text of a
    file [p]. *)
Definition expands_as (ROOT_DIR : Path) (fs : gmap Path entry)
    (ctx : gmap str str) (root : Path) (text text' : str)
    (reads : list Path) : Prop :=
  forall p pre stack,
    fs !! p = Some (File (pre ++ text)) ->
    chain_to ROOT_DIR fs root stack p ->
    exists n tr, reads_in tr = reads /\
      forall m, (n <= m)%nat ->
        sub INCLUDE_RE (include_replacer ROOT_DIR m fs p ctx stack) text
        = (tr, Ok text').

(** A sufficient test for the absence of cycles: every include directive
    of every file leads to a path of smaller rank. *)
Definition ranked (ROOT_DIR : Path) (fs : gmap Path entry)
    (rank : Path -> nat) : bool :=
  forallb (fun pe : Path * entry =>
             match pe.2 with
             | File text =>
                 forallb (fun rel =>
                            Nat.ltb (rank (joinpath (TEMPLATES_DIR ROOT_DIR) rel))
                                    (rank pe.1))
                         (findall INCLUDE_RE text)
             | Dir => true
             end)
          (map_to_list fs).

(** A diamond: [d.html] includes [l.html] and [r.html], which both include
    [x.html]. *)
Definition fs_diamond : gmap Path entry := list_to_map [
  (tpl "d.html", File (lit "{{include: l.html}}+{{include: r.html}}"));
  (tpl "l.html", File (lit "L({{include: x.html}})"));
  (tpl "r.html", File (lit "R({{include: x.html}})"));
  (tpl "x.html", File (lit "<{{v}}>"))
].

Definition ctx_diamond : gmap str str := list_to_map [(lit "v", lit "x")].

Definition rank_diamond (p : Path) : nat :=
  if bool_decide (p = tpl "d.html") then 3
  else if bool_decide (p = tpl "l.html") then 2
  else if bool_decide (p = tpl "r.html") then 2
  else if bool_decide (p = tpl "x.html") then 1
  else 0.

#[global] Instance event_eq_dec : EqDecision event.
Proof. solve_decision. Defined.

(** The number of times the file [p] is read in a trace. *)
Definition reads_of (p : Path) (tr : list event) : nat :=
  length (filter (fun ev => ev = ReadText p) tr).

(** ** Further notions: chains of includes, relative directives, reports *)

(** Each path of the list includes the next one. *)
Fixpoint include_chain (ROOT_DIR : Path) (fs : gmap Path entry)
    (l : list Path) : Prop :=
  match l with
  | p :: (q :: _) as l' =>
      includes ROOT_DIR fs p q /\ include_chain ROOT_DIR fs l'
  | _ => True
  end.

(** The stack of a call, with its path, is a chain of includes that starts
    at [root]. *)
Definition chain_event (ROOT_DIR : Path) (fs : gmap Path entry) (root : Path)
    (ev : event) : Prop :=
  match ev with
  | Enter p st =>
      head (st ++ [p]) = Some root /\ include_chain ROOT_DIR fs (st ++ [p])
  | _ => True
  end.

(** The stack of a call is no longer than the file system is large. *)
Definition depth_event (fs : gmap Path entry) (ev : event) : Prop :=
  match ev with
  | Enter _ st => (length st <= size fs)%nat
  | _ => True
  end.

(** No include directive of a file has a path that starts with a slash. *)
Definition relative_includes (fs : gmap Path entry) : Prop :=
  forall p text rel d,
    fs !! p = Some (File text) ->
    is_include_directive rel d -> occurs_in d text ->
    head rel <> Some slash.

(** The same, as a test. *)
Definition all_relative (fs : gmap Path entry) : bool :=
  forallb (fun pe : Path * entry =>
             match pe.2 with
             | File text =>
                 forallb (fun rel => negb (bool_decide (head rel = Some slash)))
                         (findall INCLUDE_RE text)
             | Dir => true
             end)
          (map_to_list fs).

(** The keys of every page context. *)
Definition schema_keys : list str := [
  lit "asset_prefix"; lit "page_title"; lit "page_description";
  lit "page_og_title"; lit "page_og_description";
  lit "page_twitter_title"; lit "page_twitter_description";
  lit "nav_brand_aria"; lit "nav_brand_current_class";
  lit "nav_home_aria"; lit "nav_home_current_class";
  lit "nav_motorists_aria"; lit "nav_motorists_current_class";
  lit "nav_law_aria"; lit "nav_law_current_class";
  lit "footer_brand_aria"; lit "footer_brand_current_class";
  lit "footer_home_aria"; lit "footer_home_current_class";
  lit "footer_motorists_aria"; lit "footer_motorists_current_class";
  lit "footer_law_aria"; lit "footer_law_current_class"
].

(** The lines printed in a trace, in order. *)
Definition prints_of (tr : list event) : list str :=
  omap (fun ev => match ev with Print line => Some line | _ => None end) tr.

(** Templates for the edge cases of the include pass: a directive for the
    template root itself, a value that looks like a placeholder inside an
    included file, and an included file that fails. *)
Definition fs_edge : gmap Path entry := list_to_map [
  (TEMPLATES_DIR ex_root, Dir);
  (tpl "dir.html", File (lit "{{include: .}}"));
  (tpl "outer.html", File (lit "[{{include: inner.html}}]"));
  (tpl "inner.html", File (lit "{{v}}"));
  (tpl "err.html", File (lit "a{{include: bad.html}}b"));
  (tpl "bad.html", File (lit "{{undefined}}"))
].

Definition ctx_edge : gmap str str :=
  list_to_map [(lit "v", lit "{{name}}"); (lit "name", lit "World")].

(** The site without the directory of the motorists page. *)
Definition fs_site_nodir : gmap Path entry :=
  delete (joinpath ex_root (lit "motorists")) fs_site.

Definition motorists_page : page :=
  match pages ex_root with
  | _ :: pg :: _ => pg
  | _ => mkPage ex_root ex_root ∅
  end.

(** The line that [main] prints for a page. *)
Definition report (ROOT_DIR : Path) (pg : page) : str :=
  lit "Rendered " ++ rel_name ROOT_DIR (output pg)
    ++ lit " from " ++ rel_name ROOT_DIR (template pg).

(** The output text of a page: line 131 of the source. *)
Definition page_text (rendered : str) : str := rstrip rendered ++ newline.

Definition home_page : page :=
  match pages ex_root with
  | pg :: _ => pg
  | _ => mkPage ex_root ex_root ∅
  end.

(** A context whose value for [v] is the text of an include directive. *)
Definition ctx_inject : gmap str str :=
  list_to_map [(lit "v", lit "{{include: bad.html}}")].

(** ** The computation monad *)

Lemma result_bind {A B} (m : M A) (k : A -> M B) :
  result (bind m k) =
  match result m with
  | Ok a => result (k a)
  | Raise e => Raise e
  | Diverge => Diverge
  end.
Proof.
  destruct m as [l [a|e|]]; simpl; try reflexivity.
  destruct (k a); reflexivity.
Qed.

Lemma trace_bind {A B} (m : M A) (k : A -> M B) :
  trace (bind m k) =
  trace m ++ match result m with
             | Ok a => trace (k a)
             | _ => []
             end.
Proof.
  destruct m as [l [a|e|]]; simpl; try (symmetry; apply app_nil_r).
  destruct (k a); reflexivity.
Qed.

Lemma bind_ret_l {A B} (a : A) (k : A -> M B) : bind (ret a) k = k a.
Proof. unfold bind, ret. destruct (k a); reflexivity. Qed.

Lemma bind_raise {A B} (e : exn) (k : A -> M B) : bind (raise e) k = raise e.
Proof. reflexivity. Qed.

Lemma bind_assoc {A B C} (m : M A) (k : A -> M B) (h : B -> M C) :
  bind (bind m k) h = bind m (fun a => bind (k a) h).
Proof.
  destruct m as [l [a|e|]]; simpl; try reflexivity.
  destruct (k a) as [l1 [b|e|]]; simpl; try reflexivity.
  destruct (h b) as [l2 r]. by rewrite app_assoc.
Qed.

Lemma M_eq {A} (m : M A) : m = (trace m, result m).
Proof. by destruct m. Qed.

(** ** The cycle branch of [_render_template] *)

Section render_facts.

Variable ROOT_DIR : Path.

Abbreviation T := (TEMPLATES_DIR ROOT_DIR).
Abbreviation render := (_render_template ROOT_DIR).

Lemma render_unfold n fs path ctx stack :
  render (S n) fs path ctx stack =
  let* _ := tell (Enter path stack) in
  if bool_decide (path ∈ stack) then
    let* names := mapM (rel_str T) (stack ++ [path]) in
    raise (RuntimeError (lit "Template include cycle detected: "
                           ++ join (lit " -> ") names))
  else
    let* text := read_text fs path in
    let* text := sub INCLUDE_RE (include_replacer ROOT_DIR n fs path ctx stack) text in
    sub VAR_RE (var_replacer ctx path) text.
Proof. reflexivity. Qed.

Lemma mapM_rel_str base ps :
  Forall (fun p => is_Some (relative_to p base)) ps ->
  mapM (rel_str base) ps = ret (map (rel_name base) ps).
Proof.
  induction 1 as [|p ps [r Hr] _ IH]; [reflexivity|].
  simpl. unfold rel_str at 1, rel_name at 1. rewrite Hr, bind_ret_l, IH.
  by rewrite !bind_ret_l.
Qed.

(** A call whose path is already on the stack, all paths lying under the
    template root, raises the cycle error with the whole chain. *)
Lemma cycle_error_under_root n fs path ctx stack :
  path ∈ stack ->
  Forall (fun p => is_Some (relative_to p T)) (stack ++ [path]) ->
  result (render (S n) fs path ctx stack) =
  Raise (RuntimeError
           (lit "Template include cycle detected: "
              ++ join (lit " -> ") (map (rel_name T) (stack ++ [path])))).
Proof.
  intros Hin Hrel. rewrite render_unfold.
  rewrite bool_decide_eq_true_2 by done.
  rewrite (mapM_rel_str _ _ Hrel). reflexivity.
Qed.

End render_facts.

Example self_inclusion_chain :
  result (_render_template ex_root 2 fs_cycles (tpl "a.html") ∅ []) =
  Raise (RuntimeError
           (lit "Template include cycle detected: a.html -> a.html")).
Proof. vm_compute. reflexivity. Qed.

Example transitive_cycle_chain :
  result (_render_template ex_root 3 fs_cycles (tpl "b.html") ∅ []) =
  Raise (RuntimeError
           (lit "Template include cycle detected: b.html -> c.html -> b.html")).
Proof. vm_compute. reflexivity. Qed.

(** C1 (the code departs from the claim): the path [/tmp/loop.html] is on
    the ancestor stack when it is rendered again, and the call does not
    raise the cycle error with its chain: [relative_to] fails on a path
    outside the template root while the message is built, and the call,
    like the top-level render that leads to it, ends with that
    [ValueError]. *)
Theorem cycle_outside_root_raises_ValueError :
  let loop := mkPath 1 [lit "tmp"; lit "loop.html"] in
  let e := tpl "e.html" in
  loop ∈ [e; loop] /\
  (exists msg,
     result (_render_template ex_root 1 fs_outside loop ∅ [e; loop]) =
     Raise (ValueError msg)) /\
  (exists msg,
     result (_render_template ex_root 3 fs_outside e ∅ []) =
     Raise (ValueError msg)) /\
  Enter loop [e; loop]
    ∈ trace (_render_template ex_root 3 fs_outside e ∅ []).
Proof.
  intros loop e. split; [|split; [|split]].
  - apply list_elem_of_In. vm_compute. tauto.
  - eexists. vm_compute. reflexivity.
  - eexists. vm_compute. reflexivity.
  - apply list_elem_of_In. vm_compute. tauto.
Qed.

(** ** The page context *)

Lemma page_context_lookup asset_prefix page_title page_description current :
  let c := _page_context asset_prefix page_title page_description current in
  let a name := if bool_decide (name = current) then aria_current else [] in
  let w name := if bool_decide (name = current) then w_current else [] in
  c !! lit "nav_brand_aria" = Some (a (lit "home")) /\
  c !! lit "nav_brand_current_class" = Some (w (lit "home")) /\
  c !! lit "nav_home_aria" = Some (a (lit "home")) /\
  c !! lit "nav_home_current_class" = Some (w (lit "home")) /\
  c !! lit "nav_motorists_aria" = Some (a (lit "motorists")) /\
  c !! lit "nav_motorists_current_class" = Some (w (lit "motorists")) /\
  c !! lit "nav_law_aria" = Some (a (lit "law")) /\
  c !! lit "nav_law_current_class" = Some (w (lit "law")) /\
  c !! lit "footer_brand_aria" = Some (a (lit "home")) /\
  c !! lit "footer_brand_current_class" = Some (w (lit "home")) /\
  c !! lit "footer_home_aria" = Some (a (lit "home")) /\
  c !! lit "footer_home_current_class" = Some (w (lit "home")) /\
  c !! lit "footer_motorists_aria" = Some (a (lit "motorists")) /\
  c !! lit "footer_motorists_current_class" = Some (w (lit "motorists")) /\
  c !! lit "footer_law_aria" = Some (a (lit "law")) /\
  c !! lit "footer_law_current_class" = Some (w (lit "law")).
Proof.
  intros c a w. subst c a w. unfold _page_context, current_attrs.
  destruct (bool_decide (lit "home" = current));
    destruct (bool_decide (lit "motorists" = current));
    destruct (bool_decide (lit "law" = current));
    repeat split; vm_compute; reflexivity.
Qed.

Lemma aria_current_nonempty : aria_current <> [] /\ w_current <> [].
Proof. split; discriminate. Qed.

(** C6 as stated fails: on the home page the header entry of the brand item
    carries the aria-current attribute although the identifier [brand]
    differs from the current identifier [home]. *)
Lemma brand_entry_ignores_own_identifier :
  ~ nav_entries home_context (lit "nav_") (lit "brand") (lit "brand") (lit "home").
Proof. intros [H _]. vm_compute in H. discriminate H. Qed.

(** C6 (amended): in every context built by [_page_context], for each
    region (header [nav_], footer [footer_]) and each item, the [_aria]
    entry is the aria-current attribute and the [_current_class] entry is
    the current-class marker when the identifier compared for the item
    equals the current identifier of the page, and both are empty
    otherwise; the identifier compared is the item's own for [home],
    [motorists] and [law], and [home] for [brand]. *)
Theorem nav_entries_by_target asset_prefix page_title page_description current :
  let c := _page_context asset_prefix page_title page_description current in
  Forall (fun region =>
    Forall (fun item => nav_entries c region item (nav_target item) current)
      nav_items) nav_regions.
Proof.
  intros c.
  pose proof (page_context_lookup asset_prefix page_title page_description
                current) as H.
  cbv zeta in H. fold c in H. destruct_and! H.
  repeat constructor; assumption.
Qed.

(** C9: in every context built by [_page_context] the brand entries equal
    the home entries, so the brand item is marked exactly when the current
    identifier is [home], and every footer entry equals the header entry of
    the same item. *)
Theorem brand_mirrors_home_footer_mirrors_nav asset_prefix page_title
    page_description current :
  let c := _page_context asset_prefix page_title page_description current in
  c !! lit "nav_brand_aria" = c !! lit "nav_home_aria" /\
  c !! lit "nav_brand_current_class" = c !! lit "nav_home_current_class" /\
  nav_entries c (lit "nav_") (lit "brand") (lit "home") current /\
  Forall (fun item =>
    is_Some (c !! aria_key (lit "nav_") item) /\
    is_Some (c !! class_key (lit "nav_") item) /\
    c !! aria_key (lit "footer_") item = c !! aria_key (lit "nav_") item /\
    c !! class_key (lit "footer_") item = c !! class_key (lit "nav_") item)
    nav_items.
Proof.
  intros c.
  pose proof (page_context_lookup asset_prefix page_title page_description
                current) as H.
  cbv zeta in H. fold c in H. destruct_and! H.
  split; [congruence|]. split; [congruence|]. split; [by split|].
  unfold nav_items.
  repeat (apply List.Forall_cons;
    [split_and!;
       [eexists; eassumption | eexists; eassumption
       | etrans; [eassumption | symmetry; assumption]
       | etrans; [eassumption | symmetry; assumption]] |]).
  apply List.Forall_nil.
Qed.

(** ** Traces of [re.sub] *)

Lemma sub_from_trace_Forall (P : event -> Prop) p repl :
  (forall g, Forall P (trace (repl g))) ->
  forall s k, Forall P (trace (sub_from p repl k s)).
Proof.
  intros Hrepl. induction s as [|c s IH]; intros k; simpl.
  - constructor.
  - destruct k as [|k]; [|apply IH].
    destruct (re_match p (c :: s) []) as [[g rest]|].
    + rewrite trace_bind. apply Forall_app. split; [apply Hrepl|].
      destruct (result (repl g)); try constructor.
      rewrite trace_bind. apply Forall_app. split; [apply IH|].
      destruct (result _); constructor.
    + rewrite trace_bind. apply Forall_app. split; [apply IH|].
      destruct (result _); constructor.
Qed.

Lemma sub_trace_Forall (P : event -> Prop) p repl s :
  (forall g, Forall P (trace (repl g))) ->
  Forall P (trace (sub p repl s)).
Proof. intros H. by apply sub_from_trace_Forall. Qed.

(** ** [rstrip] *)

Lemma rstrip_decomp s :
  exists ws, s = rstrip s ++ ws /\ forallb isspace ws = true.
Proof.
  induction s as [|c s (ws & Hs & Hws)]; simpl.
  - by exists [].
  - destruct (rstrip s) as [|x r] eqn:Hr.
    + simpl in Hs. subst ws. destruct (isspace c) eqn:Hc.
      * exists (c :: s). simpl. by rewrite Hc, Hws.
      * exists s. by split.
    + exists ws. split; [|done]. simpl. by rewrite Hs at 1.
Qed.



(** ** The page builder *)

Section builder_facts.

Variable ROOT_DIR : Path.

Abbreviation render := (_render_template ROOT_DIR).

Lemma mapM_rel_str_trace base ps : trace (mapM (rel_str base) ps) = [].
Proof.
  induction ps as [|p ps IH]; [done|]. simpl.
  rewrite trace_bind. unfold rel_str at 1 2.
  destruct (relative_to p base); simpl; [|done].
  rewrite trace_bind, IH. simpl. by destruct (result _).
Qed.

(** The renderer only reads. *)
Lemma render_trace_reads n : forall fs path ctx stack,
  Forall is_read_event (trace (render n fs path ctx stack)).
Proof.
  induction n as [|n IH]; intros fs path ctx stack; [constructor|].
  rewrite render_unfold, trace_bind. simpl.
  constructor; [done|].
  destruct (bool_decide (path ∈ stack)).
  - rewrite trace_bind, mapM_rel_str_trace. simpl.
    destruct (result _); constructor.
  - rewrite trace_bind. apply Forall_app. split.
    { unfold read_text. rewrite trace_bind. simpl. constructor; [done|].
      destruct (fs !! path) as [[]|]; constructor. }
    destruct (result (read_text fs path)); try constructor.
    rewrite trace_bind. apply Forall_app. split.
    + apply sub_trace_Forall. intros g. unfold include_replacer.
      destruct (path_exists _ _); [apply IH|constructor].
    + destruct (result _); try constructor.
      apply sub_trace_Forall. intros g. unfold var_replacer.
      destruct (ctx !! g); constructor.
Qed.

End builder_facts.

Section main_facts.

Variable ROOT_DIR : Path.

Abbreviation render := (_render_template ROOT_DIR).

Lemma result_bind_Ok {A B} (m : M A) (k : A -> M B) b :
  result (bind m k) = Ok b ->
  exists a, result m = Ok a /\ result (k a) = Ok b.
Proof. rewrite result_bind. destruct (result m); [eauto|done..]. Qed.

Lemma rel_str_trace base p : trace (rel_str base p) = [].
Proof. unfold rel_str. by destruct (relative_to p base). Qed.

Lemma write_text_trace fs p data :
  trace (write_text fs p data) = [] \/
  trace (write_text fs p data) = [WriteText p data].
Proof.
  unfold write_text.
  destruct (fs !! p) as [[]|]; destruct (fs !! parent p) as [[]|]; auto.
Qed.

Lemma write_text_Ok fs p data fs' :
  result (write_text fs p data) = Ok fs' ->
  fs' = <[p := File data]> fs /\
  trace (write_text fs p data) = [WriteText p data].
Proof.
  unfold write_text.
  destruct (fs !! p) as [[]|]; destruct (fs !! parent p) as [[]|];
    simpl; try done; by intros [= <-].
Qed.

Lemma build_page_Ok fuel fs pg fs' :
  result (build_page ROOT_DIR fuel fs pg) = Ok fs' ->
  exists text,
    result (render fuel fs (template pg) (context pg) []) = Ok text /\
    fs' = <[output pg := File (rstrip text ++ newline)]> fs /\
    WriteText (output pg) (rstrip text ++ newline)
      ∈ trace (build_page ROOT_DIR fuel fs pg).
Proof.
  unfold build_page. intros H.
  apply result_bind_Ok in H as (text & Hr & H).
  pose proof H as H'.
  apply result_bind_Ok in H' as (fs1 & Hw & H').
  apply write_text_Ok in Hw as [-> Hw].
  apply result_bind_Ok in H' as (r1 & _ & H').
  apply result_bind_Ok in H' as (r2 & _ & H').
  apply result_bind_Ok in H' as ([] & _ & H').
  injection H' as <-.
  exists text. split; [done|]. split; [done|].
  rewrite trace_bind, Hr, trace_bind, Hw.
  apply elem_of_app. right. apply elem_of_app. left.
  by apply list_elem_of_singleton.
Qed.



Lemma rel_str_result base p r :
  result (rel_str base p) = Ok r -> r = rel_name base p.
Proof.
  unfold rel_str, rel_name. destruct (relative_to p base); [|done].
  by intros [= <-].
Qed.

Lemma prints_of_reads tr : Forall is_read_event tr -> prints_of tr = [].
Proof.
  induction 1 as [|ev tr Hev _ IH]; [done|].
  unfold prints_of in *. simpl. destruct ev; simpl in *; done.
Qed.

Lemma prints_of_app tr1 tr2 :
  prints_of (tr1 ++ tr2) = prints_of tr1 ++ prints_of tr2.
Proof. apply omap_app. Qed.



Lemma Built_outputs fuel fs ps ws fs' :
  Built ROOT_DIR fuel fs ps ws fs' -> map fst ws = map output ps.
Proof. induction 1; simpl; by f_equal. Qed.




Lemma build_pages_other fuel ps : forall fs fs' p,
  result (build_pages ROOT_DIR fuel fs ps) = Ok fs' ->
  p ∉ map output ps ->
  fs' !! p = fs !! p.
Proof.
  induction ps as [|pg ps IH]; intros fs fs' p; simpl.
  - by intros [= <-].
  - intros H Hp. apply result_bind_Ok in H as (fs1 & H1 & H).
    apply build_page_Ok in H1 as (text & _ & -> & _).
    simpl in Hp. apply not_elem_of_cons in Hp as [Hne Hp].
    rewrite (IH _ _ _ H Hp). by apply lookup_insert_ne.
Qed.



End main_facts.

(** ** The matcher *)

Arguments re_match : simpl never.

Example include_re_ex :
  re_match INCLUDE_RE (lit "{{ include: a/b.html }}tail") [] =
  Some (lit "a/b.html", lit "tail").
Proof. reflexivity. Qed.

Example var_re_ex :
  re_match VAR_RE (lit "{{name}}!") [] = Some (lit "name", lit "!").
Proof. reflexivity. Qed.

Example var_re_not_include :
  re_match VAR_RE (lit "{{include: a}}") [] = None.
Proof. reflexivity. Qed.

Lemma re_match_chr c p s g :
  re_match (Chr c :: p) s g =
  match s with
  | x :: s' => if x =? c then re_match p s' g else None
  | [] => None
  end.
Proof. reflexivity. Qed.

Lemma re_match_star cls p s g :
  re_match (Star cls :: p) s g =
  match s with
  | x :: s' =>
      if cls x then
        match re_match (Star cls :: p) s' g with
        | Some r => Some r
        | None => re_match p s g
        end
      else re_match p s g
  | [] => re_match p [] g
  end.
Proof. destruct s; reflexivity. Qed.

Lemma re_match_group cls p s g :
  re_match (Group cls :: p) s g =
  match s with
  | x :: s' =>
      if cls x then
        match re_match (Group cls :: p) s' (g ++ [x]) with
        | Some r => Some r
        | None => re_match p s' (g ++ [x])
        end
      else None
  | [] => None
  end.
Proof. destruct s; reflexivity. Qed.

Lemma re_match_chr_elim c p s g r :
  re_match (Chr c :: p) s g = Some r ->
  exists s', s = c :: s' /\ re_match p s' g = Some r.
Proof.
  rewrite re_match_chr. destruct s as [|x s']; [done|].
  destruct (N.eqb_spec x c) as [->|]; [eauto|done].
Qed.

Lemma re_match_chr_intro c p s g :
  re_match (Chr c :: p) (c :: s) g = re_match p s g.
Proof. rewrite re_match_chr. by rewrite N.eqb_refl. Qed.

Lemma re_match_star_elim cls p : forall s g r,
  re_match (Star cls :: p) s g = Some r ->
  exists ws s', s = ws ++ s' /\ all_in cls ws /\ re_match p s' g = Some r.
Proof.
  induction s as [|x s IH]; intros g r; rewrite re_match_star.
  - intros H. exists [], []. repeat split; [constructor|done].
  - destruct (cls x) eqn:Hx.
    + destruct (re_match (Star cls :: p) s g) as [r'|] eqn:Hs.
      * intros [= ->]. destruct (IH _ _ Hs) as (ws & s' & -> & Hws & Hr).
        exists (x :: ws), s'. repeat split; [by constructor|done].
      * intros H. exists [], (x :: s). repeat split; [constructor|done].
    + intros H. exists [], (x :: s). repeat split; [constructor|done].
Qed.

Lemma re_match_star_intro cls p s g r : forall ws,
  all_in cls ws -> stops cls s ->
  re_match p s g = Some r ->
  re_match (Star cls :: p) (ws ++ s) g = Some r.
Proof.
  intros ws Hws Hstop Hr. induction Hws as [|x ws Hx _ IH]; simpl.
  - rewrite re_match_star. destruct s as [|y s']; [done|].
    simpl in Hstop. by rewrite Hstop.
  - rewrite re_match_star, Hx, IH. done.
Qed.

Lemma re_match_group_elim cls p : forall s g r,
  re_match (Group cls :: p) s g = Some r ->
  exists k s', s = k ++ s' /\ k <> [] /\ all_in cls k /\
    re_match p s' (g ++ k) = Some r.
Proof.
  induction s as [|x s IH]; intros g r; rewrite re_match_group; [done|].
  destruct (cls x) eqn:Hx; [|done].
  destruct (re_match (Group cls :: p) s (g ++ [x])) as [r'|] eqn:Hs.
  - intros [= ->]. destruct (IH _ _ Hs) as (k & s' & -> & _ & Hk & Hr).
    exists (x :: k), s'. repeat split; [done|by constructor|].
    by rewrite <- app_assoc in Hr.
  - intros H. exists [x], s. repeat split; [done|by repeat constructor|done].
Qed.

Lemma re_match_group_stop cls p s g :
  stops cls s -> re_match (Group cls :: p) s g = None.
Proof.
  intros H. rewrite re_match_group. destruct s as [|x s]; [done|].
  simpl in H. by rewrite H.
Qed.

Lemma re_match_group_intro cls p s r : forall k g,
  k <> [] -> all_in cls k -> stops cls s ->
  re_match p s (g ++ k) = Some r ->
  re_match (Group cls :: p) (k ++ s) g = Some r.
Proof.
  induction k as [|x k IH]; intros g Hne Hk Hstop Hr; [done|].
  apply Forall_cons in Hk as [Hx Hk]. simpl.
  rewrite re_match_group, Hx. destruct k as [|y k].
  - simpl. by rewrite re_match_group_stop, Hr.
  - rewrite (IH (g ++ [x])); [done|done|done|done|].
    by rewrite <- app_assoc.
Qed.

(** The text after a match is a suffix of the subject. *)
Lemma re_match_suffix p : forall s g k rest,
  re_match p s g = Some (k, rest) -> exists m, s = m ++ rest.
Proof.
  induction p as [|[c|cls|cls] p IH]; intros s g k rest H.
  - injection H as <- <-. by exists [].
  - apply re_match_chr_elim in H as (s' & -> & H).
    destruct (IH _ _ _ _ H) as [m ->]. by exists (c :: m).
  - apply re_match_star_elim in H as (ws & s' & -> & _ & H).
    destruct (IH _ _ _ _ H) as [m ->]. exists (ws ++ m). by rewrite app_assoc.
  - apply re_match_group_elim in H as (k' & s' & -> & _ & _ & H).
    destruct (IH _ _ _ _ H) as [m ->]. exists (k' ++ m). by rewrite app_assoc.
Qed.

(** ** Character classes *)

Lemma isspace_range c : isspace c = true -> c <= 32 \/ 133 <= c.
Proof.
  unfold isspace.
  rewrite !orb_true_iff, !andb_true_iff, !N.leb_le, !N.eqb_eq. lia.
Qed.

Lemma is_alnum_range c : is_alnum c = true -> 48 <= c <= 122.
Proof.
  unfold is_alnum.
  rewrite !orb_true_iff, !andb_true_iff, !N.leb_le. lia.
Qed.

Lemma is_path_char_range c : is_path_char c = true -> 45 <= c <= 122.
Proof.
  unfold is_path_char. rewrite !orb_true_iff, !N.eqb_eq.
  intros [[[[H%is_alnum_range|H]|H]|H]|H]; lia.
Qed.

Lemma is_ident_char_range c : is_ident_char c = true -> 48 <= c <= 122.
Proof.
  unfold is_ident_char. rewrite !orb_true_iff, !N.eqb_eq.
  intros [H%is_alnum_range|H]; lia.
Qed.

Lemma not_true_false b : (b = true -> False) -> b = false.
Proof. by destruct b; [intros []|]. Qed.

Lemma space_not_ident c : isspace c = true -> is_ident_char c = false.
Proof.
  intros H%isspace_range. apply not_true_false.
  intros H'%is_ident_char_range. lia.
Qed.

Lemma space_not_path c : isspace c = true -> is_path_char c = false.
Proof.
  intros H%isspace_range. apply not_true_false.
  intros H'%is_path_char_range. lia.
Qed.

Lemma ident_not_space c : is_ident_char c = true -> isspace c = false.
Proof.
  intros H%is_ident_char_range. apply not_true_false.
  intros H'%isspace_range. lia.
Qed.

Lemma path_not_space c : is_path_char c = true -> isspace c = false.
Proof.
  intros H%is_path_char_range. apply not_true_false.
  intros H'%isspace_range. lia.
Qed.

(** ** The two patterns match the two kinds of markers *)

Lemma stops_app_all cls cls' w s :
  (forall c, cls' c = true -> cls c = false) ->
  all_in cls' w -> stops cls s -> stops cls (w ++ s).
Proof. intros Hd [|x w' Hx _] Hs; simpl; auto. Qed.

Lemma stops_app_nonempty cls cls' k s :
  (forall c, cls' c = true -> cls c = false) ->
  k <> [] -> all_in cls' k -> stops cls (k ++ s).
Proof.
  intros Hd Hne Hk. destruct k as [|x k']; [done|].
  apply Forall_cons in Hk as [Hx _]. simpl. auto.
Qed.

Lemma var_match_iff s k rest :
  re_match VAR_RE s [] = Some (k, rest) <->
  exists ph, is_placeholder k ph /\ s = ph ++ rest.
Proof.
  change VAR_RE with
    [Chr lbrace; Chr lbrace; Star isspace; Group is_ident_char; Star isspace;
     Chr rbrace; Chr rbrace].
  split.
  - intros H.
    apply re_match_chr_elim in H as (s1 & -> & H).
    apply re_match_chr_elim in H as (s2 & -> & H).
    apply re_match_star_elim in H as (w1 & s3 & -> & Hw1 & H).
    apply re_match_group_elim in H as (k' & s4 & -> & Hne & Hk & H).
    apply re_match_star_elim in H as (w2 & s5 & -> & Hw2 & H).
    apply re_match_chr_elim in H as (s6 & -> & H).
    apply re_match_chr_elim in H as (s7 & -> & H).
    injection H as <- <-.
    exists ([lbrace; lbrace] ++ w1 ++ k' ++ w2 ++ [rbrace; rbrace]). split.
    + by exists w1, w2.
    + simpl. by rewrite <- !app_assoc.
  - intros (ph & (w1 & w2 & -> & Hw1 & Hw2 & Hne & Hk) & ->).
    rewrite <- !app_assoc. simpl.
    rewrite !re_match_chr_intro.
    apply re_match_star_intro; [done| |].
    { eapply stops_app_nonempty; [apply ident_not_space|done|done]. }
    apply re_match_group_intro; [done|done| |].
    { eapply stops_app_all; [apply space_not_ident|done|done]. }
    apply re_match_star_intro; [done|done|].
    by rewrite !re_match_chr_intro.
Qed.

Lemma include_match_iff s rel rest :
  re_match INCLUDE_RE s [] = Some (rel, rest) <->
  exists d, is_include_directive rel d /\ s = d ++ rest.
Proof.
  change INCLUDE_RE with
    ([Chr lbrace; Chr lbrace; Star isspace] ++ chars "include:"
     ++ [Star isspace; Group is_path_char; Star isspace;
         Chr rbrace; Chr rbrace]).
  change (lit "include:") with [105; 110; 99; 108; 117; 100; 101; 58].
  change (chars "include:") with
    [Chr 105; Chr 110; Chr 99; Chr 108; Chr 117; Chr 100; Chr 101; Chr 58].
  split.
  - intros H. simpl in H.
    apply re_match_chr_elim in H as (s1 & -> & H).
    apply re_match_chr_elim in H as (s2 & -> & H).
    apply re_match_star_elim in H as (w1 & s3 & -> & Hw1 & H).
    do 8 (apply re_match_chr_elim in H as (? & -> & H)).
    apply re_match_star_elim in H as (w2 & s4 & -> & Hw2 & H).
    apply re_match_group_elim in H as (k' & s5 & -> & Hne & Hk & H).
    apply re_match_star_elim in H as (w3 & s6 & -> & Hw3 & H).
    apply re_match_chr_elim in H as (s7 & -> & H).
    apply re_match_chr_elim in H as (s8 & -> & H).
    injection H as <- <-.
    eexists. split.
    + by exists w1, w2, w3.
    + simpl. rewrite <- !app_assoc. simpl. by rewrite <- !app_assoc.
  - intros (d & (w1 & w2 & w3 & -> & Hw1 & Hw2 & Hw3 & Hne & Hk) & ->).
    rewrite <- !app_assoc. simpl.
    rewrite !re_match_chr_intro.
    apply re_match_star_intro; [done|done|].
    rewrite <- ?app_assoc. simpl.
    rewrite !re_match_chr_intro.
    apply re_match_star_intro; [done| |].
    { eapply stops_app_nonempty; [apply path_not_space|done|done]. }
    apply re_match_group_intro; [done|done| |].
    { eapply stops_app_all; [apply space_not_path|done|done]. }
    apply re_match_star_intro; [done|done|].
    by rewrite !re_match_chr_intro.
Qed.

(** ** Scanning a text for the matches of a pattern

    The facts below hold for a pattern [p] whose matches are the texts of a
    given [shape], every such text being two opening braces followed by a
    non-empty text without opening brace.  Both patterns of the source are
    of this kind. *)

Lemma app_eq_notin {A} (x : A) body : forall l1 t rest,
  l1 ++ x :: t = body ++ rest -> x ∉ body -> exists l, l1 = body ++ l.
Proof.
  induction body as [|b body IH]; intros l1 t rest Heq Hx.
  - by exists l1.
  - destruct l1 as [|a l1]; simpl in Heq; injection Heq as -> Heq.
    + exfalso. apply Hx. by left.
    + apply not_elem_of_cons in Hx as [_ Hx].
      destruct (IH _ _ _ Heq Hx) as [l ->]. by exists l.
Qed.

Lemma sub_from_skip p repl : forall s k,
  sub_from p repl k s = sub p repl (drop k s).
Proof.
  induction s as [|c s IH]; intros [|k]; try reflexivity.
  simpl. apply IH.
Qed.

Lemma findall_from_skip p : forall s k,
  findall_from p k s = findall p (drop k s).
Proof.
  induction s as [|c s IH]; intros [|k]; try reflexivity.
  simpl. apply IH.
Qed.

Lemma sub_cons p repl c s :
  sub p repl (c :: s) =
  match re_match p (c :: s) [] with
  | Some (g, rest) =>
      let* r := repl g in
      let* out := sub_from p repl (length s - length rest) s in
      ret (r ++ out)
  | None => let* out := sub p repl s in ret (c :: out)
  end.
Proof. reflexivity. Qed.

Lemma findall_cons p c s :
  findall p (c :: s) =
  match re_match p (c :: s) [] with
  | Some (g, rest) => g :: findall_from p (length s - length rest) s
  | None => findall p s
  end.
Proof. reflexivity. Qed.

Lemma drop_suffix {A} (m rest : list A) :
  drop (length (m ++ rest) - length rest) (m ++ rest) = rest.
Proof.
  rewrite length_app.
  replace (length m + length rest - length rest)%nat with (length m) by lia.
  apply drop_app_length.
Qed.

Lemma sub_nomatch p repl c s :
  re_match p (c :: s) [] = None ->
  sub p repl (c :: s) = let* out := sub p repl s in ret (c :: out).
Proof. intros H. by rewrite sub_cons, H. Qed.

Lemma findall_nomatch p c s :
  re_match p (c :: s) [] = None -> findall p (c :: s) = findall p s.
Proof. intros H. by rewrite findall_cons, H. Qed.

Ltac monad_norm := simpl; rewrite ?app_nil_r, <- ?app_assoc; try done.

Section scan.

Variable p : pattern.
Variable shape : str -> str -> Prop.

Hypothesis match_iff : forall s g rest,
  re_match p s [] = Some (g, rest) <-> exists m, shape g m /\ s = m ++ rest.

Hypothesis shape_braces : forall g m,
  shape g m ->
  exists body, m = lbrace :: lbrace :: body /\ body <> [] /\ lbrace ∉ body.

Lemma sub_match repl s g rest :
  re_match p s [] = Some (g, rest) ->
  sub p repl s =
  let* r := repl g in let* out := sub p repl rest in ret (r ++ out).
Proof.
  intros H. pose proof H as H'.
  apply match_iff in H' as (m & (body & -> & _)%shape_braces & ->).
  change ((lbrace :: lbrace :: body) ++ rest)
    with (lbrace :: ((lbrace :: body) ++ rest)) in *.
  rewrite sub_cons, H, sub_from_skip. by rewrite drop_suffix.
Qed.

Lemma findall_match s g rest :
  re_match p s [] = Some (g, rest) ->
  findall p s = g :: findall p rest.
Proof.
  intros H. pose proof H as H'.
  apply match_iff in H' as (m & (body & -> & _)%shape_braces & ->).
  change ((lbrace :: lbrace :: body) ++ rest)
    with (lbrace :: ((lbrace :: body) ++ rest)) in *.
  rewrite findall_cons, H, findall_from_skip. by rewrite drop_suffix.
Qed.

(** Induction along the scan. *)
Lemma scan_ind (P : str -> Prop) :
  P [] ->
  (forall c s, re_match p (c :: s) [] = None -> P s -> P (c :: s)) ->
  (forall g m rest, shape g m -> P rest -> P (m ++ rest)) ->
  forall s, P s.
Proof.
  intros Hnil Hno Hyes s.
  remember (length s) as n eqn:Hn. revert s Hn.
  induction n as [n IH] using lt_wf_ind. intros s Hn.
  destruct s as [|c s]; [done|].
  destruct (re_match p (c :: s) []) as [[g rest]|] eqn:Hm.
  - apply match_iff in Hm as (m & Hs & Heq). rewrite Heq.
    apply (Hyes g); [done|].
    destruct (shape_braces _ _ Hs) as (body & -> & _).
    apply (IH (length rest)); [|done].
    rewrite Hn, Heq, length_app. simpl. lia.
  - apply Hno; [done|]. apply (IH (length s)); [|done].
    rewrite Hn. simpl. lia.
Qed.

(** Two matches do not overlap: a match that starts before another one
    ends before it. *)
Lemma shape_inside g m g' m' x t t' :
  shape g m -> shape g' m' -> x <> [] ->
  x ++ m ++ t = m' ++ t' ->
  exists l, x = m' ++ l.
Proof.
  intros (body & -> & _ & _)%shape_braces
         (body' & -> & Hne' & Hnotin')%shape_braces Hx Heq.
  destruct x as [|c1 x]; [done|]. simpl in Heq. injection Heq as -> Heq.
  destruct x as [|c2 x]; simpl in Heq.
  - injection Heq as Heq.
    destruct body' as [|b body']; [done|]. simpl in Heq.
    injection Heq as <- _. exfalso. apply Hnotin'. by left.
  - injection Heq as -> Heq.
    destruct (app_eq_notin _ _ _ _ _ Heq Hnotin') as [l ->].
    by exists l.
Qed.

Lemma match_app s t g rest :
  re_match p s [] = Some (g, rest) ->
  re_match p (s ++ t) [] = Some (g, rest ++ t).
Proof.
  intros (m & Hs & ->)%match_iff. apply match_iff.
  exists m. by rewrite app_assoc.
Qed.

Lemma nomatch_app g m c s t :
  shape g m ->
  re_match p (c :: s) [] = None ->
  re_match p (c :: s ++ m ++ t) [] = None.
Proof.
  intros Hs Hno.
  destruct (re_match p (c :: s ++ m ++ t) []) as [[g' rest']|] eqn:Hm; [|done].
  apply match_iff in Hm as (m' & Hs' & Heq).
  destruct (shape_inside g m g' m' (c :: s) t rest' Hs Hs') as [l Hl];
    [done|done|].
  assert (re_match p (c :: s) [] = Some (g', l)) as H.
  { apply match_iff. by exists m'. }
  congruence.
Qed.

(** The scan of a text around one of its matches. *)
Lemma sub_app_match repl g m rest :
  shape g m ->
  forall pre,
  sub p repl (pre ++ m ++ rest) =
  let* o1 := sub p repl pre in
  let* r := repl g in
  let* o2 := sub p repl rest in
  ret (o1 ++ r ++ o2).
Proof.
  intros Hs pre. pattern pre.
  apply scan_ind; [|intros c s Hno IH|intros g1 m1 rest1 Hs1 IH].
  - change (sub p repl []) with (@ret (list N) []).
    rewrite bind_ret_l, app_nil_l.
    apply sub_match, match_iff. by exists m.
  - rewrite <- app_comm_cons.
    rewrite (sub_nomatch _ _ _ _ (nomatch_app g m c s rest Hs Hno)).
    rewrite IH, (sub_nomatch _ _ _ _ Hno).
    destruct (sub p repl s) as [l1 [o1|e|]]; monad_norm.
    destruct (repl g) as [l2 [r|e|]]; monad_norm.
    destruct (sub p repl rest) as [l3 [o2|e|]]; monad_norm.
  - rewrite <- app_assoc.
    rewrite (sub_match repl (m1 ++ rest1 ++ m ++ rest) g1 (rest1 ++ m ++ rest))
      by (apply match_iff; by exists m1).
    rewrite (sub_match repl (m1 ++ rest1) g1 rest1)
      by (apply match_iff; by exists m1).
    rewrite IH.
    destruct (repl g1) as [l0 [r1|e|]]; monad_norm.
    destruct (sub p repl rest1) as [l1 [o1|e|]]; monad_norm.
    destruct (repl g) as [l2 [r|e|]]; monad_norm.
    destruct (sub p repl rest) as [l3 [o2|e|]]; monad_norm.
Qed.

Lemma findall_app_match g m rest :
  shape g m ->
  forall pre,
  findall p (pre ++ m ++ rest) = findall p pre ++ g :: findall p rest.
Proof.
  intros Hs pre. pattern pre.
  apply scan_ind; [|intros c s Hno IH|intros g1 m1 rest1 Hs1 IH].
  - simpl. apply findall_match, match_iff. by exists m.
  - rewrite <- app_comm_cons.
    rewrite (findall_nomatch _ _ _ (nomatch_app g m c s rest Hs Hno)).
    by rewrite IH, (findall_nomatch _ _ _ Hno).
  - rewrite <- app_assoc.
    rewrite (findall_match (m1 ++ rest1 ++ m ++ rest) g1 (rest1 ++ m ++ rest))
      by (apply match_iff; by exists m1).
    rewrite (findall_match (m1 ++ rest1) g1 rest1)
      by (apply match_iff; by exists m1).
    by rewrite IH.
Qed.

(** [findall] lists the groups of all the occurrences of a match. *)
Lemma findall_occurs g s :
  g ∈ findall p s <-> exists m, shape g m /\ occurs_in m s.
Proof.
  split.
  - pattern s. apply scan_ind; [|intros c s' Hno IH|intros g1 m1 rest1 Hs1 IH].
    + by intros ?%elem_of_nil.
    + rewrite (findall_nomatch _ _ _ Hno).
      intros (m & Hs & pre & post & ->)%IH.
      exists m. split; [done|]. by exists (c :: pre), post.
    + rewrite (findall_match (m1 ++ rest1) g1 rest1)
        by (apply match_iff; by exists m1).
      intros [->|Hin]%elem_of_cons.
      * exists m1. split; [done|]. by exists [], rest1.
      * destruct (IH Hin) as (m & Hs & pre & post & ->).
        exists m. split; [done|]. exists (m1 ++ pre), post.
        by rewrite <- app_assoc.
  - intros (m & Hs & pre & post & ->).
    rewrite (findall_app_match g m post Hs).
    apply elem_of_app. right. by left.
Qed.

End scan.

(** ** The two patterns as scans *)

Lemma all_in_notin cls w x : all_in cls w -> cls x = false -> x ∉ w.
Proof.
  intros Hw Hx Hin. unfold all_in in Hw. rewrite Forall_forall in Hw.
  specialize (Hw _ Hin). congruence.
Qed.

Lemma placeholder_braces k ph :
  is_placeholder k ph ->
  exists body, ph = lbrace :: lbrace :: body /\ body <> [] /\ lbrace ∉ body.
Proof.
  intros (w1 & w2 & -> & Hw1 & Hw2 & Hne & Hk).
  exists (w1 ++ k ++ w2 ++ [rbrace; rbrace]). split; [done|]. split.
  - destruct w1; [|done]. destruct k; done.
  - rewrite !elem_of_app, !elem_of_cons, elem_of_nil.
    intros [H|[H|[H|[H|[H|[]]]]]]; try discriminate H.
    + by apply (all_in_notin _ _ _ Hw1) in H.
    + by apply (all_in_notin _ _ _ Hk) in H.
    + by apply (all_in_notin _ _ _ Hw2) in H.
Qed.

Lemma include_braces rel d :
  is_include_directive rel d ->
  exists body, d = lbrace :: lbrace :: body /\ body <> [] /\ lbrace ∉ body.
Proof.
  intros (w1 & w2 & w3 & -> & Hw1 & Hw2 & Hw3 & Hne & Hk).
  exists (w1 ++ lit "include:" ++ w2 ++ rel ++ w3 ++ [rbrace; rbrace]).
  split; [done|]. split.
  - destruct w1; done.
  - rewrite !elem_of_app, !elem_of_cons, elem_of_nil.
    intros [H|[H|[H|[H|[H|[H|[H|[]]]]]]]]; try discriminate H.
    + by apply (all_in_notin _ _ _ Hw1) in H.
    + apply list_elem_of_In in H. vm_compute in H.
      repeat destruct H as [H|H]; done.
    + by apply (all_in_notin _ _ _ Hw2) in H.
    + by apply (all_in_notin _ _ _ Hk) in H.
    + by apply (all_in_notin _ _ _ Hw3) in H.
Qed.

(** A text without include directive is one in which [INCLUDE_RE] finds
    nothing. *)
Lemma no_include_findall text :
  no_include text <-> findall INCLUDE_RE text = [].
Proof.
  split.
  - intros Hno. destruct (findall INCLUDE_RE text) as [|rel l] eqn:Hf; [done|].
    assert (rel ∈ findall INCLUDE_RE text) as Hin by (rewrite Hf; by left).
    apply (findall_occurs _ _ include_match_iff include_braces) in Hin
      as (d & Hd & Hocc).
    by destruct (Hno rel d Hd).
  - intros Hf rel d Hd Hocc.
    assert (rel ∈ findall INCLUDE_RE text) as Hin.
    { apply (findall_occurs _ _ include_match_iff include_braces). eauto. }
    rewrite Hf in Hin. by apply elem_of_nil in Hin.
Qed.

(** The identifiers of the placeholders of a text are those that [VAR_RE]
    finds. *)
Lemma placeholder_findall k text :
  (exists ph, is_placeholder k ph /\ occurs_in ph text) <->
  k ∈ findall VAR_RE text.
Proof.
  symmetry. apply (findall_occurs _ _ var_match_iff placeholder_braces).
Qed.

Lemma no_include_cons c text : no_include (c :: text) -> no_include text.
Proof.
  intros Hno rel d Hd (pre & post & ->).
  apply (Hno rel d Hd). by exists (c :: pre), post.
Qed.

(** Without include directive the include pass returns the text, for any
    replacement function. *)
Lemma sub_no_include repl text :
  no_include text -> sub INCLUDE_RE repl text = ret text.
Proof.
  pattern text.
  apply (scan_ind _ _ include_match_iff include_braces);
    [|intros c s Hno IH|intros g m rest Hs IH]; intros Hni.
  - reflexivity.
  - rewrite (sub_nomatch _ _ _ _ Hno), IH by (by eapply no_include_cons).
    reflexivity.
  - exfalso. apply (Hni g m Hs). by exists [], rest.
Qed.

(** ** The variable pass *)

Section variable_pass.

Variable ctx : gmap str str.
Variable path : Path.

Lemma var_replacer_Some k v :
  ctx !! k = Some v -> var_replacer ctx path k = ret v.
Proof. unfold var_replacer. by intros ->. Qed.

Lemma var_replacer_None k :
  ctx !! k = None ->
  var_replacer ctx path k =
  raise (KeyError (lit "Missing template variable '" ++ k ++ lit "' for "
                     ++ path_str path)).
Proof. unfold var_replacer. by intros ->. Qed.

Lemma no_placeholder_prefix c s :
  re_match VAR_RE (c :: s) [] = None <->
  forall k ph tl, is_placeholder k ph -> c :: s <> ph ++ tl.
Proof.
  split.
  - intros Hno k ph tl Hph Heq.
    assert (re_match VAR_RE (c :: s) [] = Some (k, tl)) as H.
    { apply var_match_iff. by exists ph. }
    congruence.
  - intros H. destruct (re_match VAR_RE (c :: s) []) as [[k tl]|] eqn:Hm; [|done].
    apply var_match_iff in Hm as (ph & Hph & Heq). by destruct (H k ph tl).
Qed.

Lemma sub_vars_complete s out :
  Substituted ctx s out -> sub VAR_RE (var_replacer ctx path) s = ret out.
Proof.
  induction 1 as [|k ph rest v out Hph Hk _ IH|c rest out Hno _ IH].
  - reflexivity.
  - rewrite (sub_match _ _ var_match_iff placeholder_braces _ (ph ++ rest) k rest)
      by (apply var_match_iff; by exists ph).
    by rewrite (var_replacer_Some _ _ Hk), bind_ret_l, IH, bind_ret_l.
  - apply no_placeholder_prefix in Hno.
    by rewrite (sub_nomatch _ _ _ _ Hno), IH, bind_ret_l.
Qed.

Lemma Substituted_functional s out1 out2 :
  Substituted ctx s out1 -> Substituted ctx s out2 -> out1 = out2.
Proof.
  intros H1%sub_vars_complete H2%sub_vars_complete.
  rewrite H1 in H2. by injection H2.
Qed.

Lemma all_keys_Substituted s :
  (forall k, k ∈ findall VAR_RE s -> is_Some (ctx !! k)) ->
  exists out, Substituted ctx s out.
Proof.
  pattern s.
  apply (scan_ind _ _ var_match_iff placeholder_braces);
    [|intros c s' Hno IH|intros g m rest Hs IH]; intros Hkeys.
  - exists []. constructor.
  - rewrite (findall_nomatch _ _ _ Hno) in Hkeys.
    destruct (IH Hkeys) as [out Hout]. exists (c :: out).
    constructor; [|done]. by apply no_placeholder_prefix.
  - rewrite (findall_match _ _ var_match_iff placeholder_braces (m ++ rest) g rest)
      in Hkeys by (apply var_match_iff; by exists m).
    destruct (Hkeys g) as [v Hv]; [by left|].
    destruct IH as [out Hout]; [intros k Hk; apply Hkeys; by right|].
    exists (v ++ out). by econstructor.
Qed.

Lemma sub_vars_sound s : forall out,
  result (sub VAR_RE (var_replacer ctx path) s) = Ok out ->
  Substituted ctx s out.
Proof.
  pattern s.
  apply (scan_ind _ _ var_match_iff placeholder_braces);
    [|intros c s' Hno IH|intros g m rest Hs IH]; intros out.
  - intros [= <-]. constructor.
  - rewrite (sub_nomatch _ _ _ _ Hno), result_bind.
    destruct (result (sub VAR_RE _ s')) as [o| |] eqn:Ho; try done.
    intros [= <-]. constructor; [by apply no_placeholder_prefix|by apply IH].
  - rewrite (sub_match _ _ var_match_iff placeholder_braces _ (m ++ rest) g rest)
      by (apply var_match_iff; by exists m).
    destruct (ctx !! g) as [v|] eqn:Hg.
    + rewrite (var_replacer_Some _ _ Hg), bind_ret_l, result_bind.
      destruct (result (sub VAR_RE _ rest)) as [o| |] eqn:Ho; try done.
      intros [= <-]. econstructor; [done|done|by apply IH].
    + by rewrite (var_replacer_None _ Hg).
Qed.

(** The first placeholder without value ends the pass. *)
Lemma sub_vars_missing s :
  (exists k, k ∈ findall VAR_RE s /\ ctx !! k = None) ->
  exists pre k ph post opre,
    s = pre ++ ph ++ post /\ is_placeholder k ph /\ ctx !! k = None /\
    Substituted ctx pre opre /\
    result (sub VAR_RE (var_replacer ctx path) s) =
    Raise (KeyError (lit "Missing template variable '" ++ k ++ lit "' for "
                       ++ path_str path)).
Proof.
  pattern s.
  apply (scan_ind _ _ var_match_iff placeholder_braces);
    [|intros c s' Hno IH|intros g m rest Hs IH]; intros (k0 & Hin & Hk0).
  - by apply elem_of_nil in Hin.
  - rewrite (findall_nomatch _ _ _ Hno) in Hin.
    destruct IH as (pre & k & ph & post & opre & -> & Hph & Hk & Hpre & Hres);
      [by exists k0|].
    exists (c :: pre), k, ph, post, (c :: opre).
    split; [done|]. split; [done|]. split; [done|]. split.
    + constructor; [|done]. intros k1 ph1 tl Hph1 Heq.
      apply (proj1 (no_placeholder_prefix _ _) Hno k1 ph1 (tl ++ ph ++ post) Hph1).
      by rewrite (app_assoc ph1 tl), <- Heq.
    + rewrite (sub_nomatch _ _ _ _ Hno), result_bind, Hres. done.
  - rewrite (findall_match _ _ var_match_iff placeholder_braces (m ++ rest) g rest)
      in Hin by (apply var_match_iff; by exists m).
    rewrite (sub_match _ _ var_match_iff placeholder_braces _ (m ++ rest) g rest)
      by (apply var_match_iff; by exists m).
    destruct (ctx !! g) as [v|] eqn:Hg.
    + destruct IH as (pre & k & ph & post & opre & -> & Hph & Hk & Hpre & Hres).
      { exists k0. split; [|done].
        apply elem_of_cons in Hin as [->|Hin]; [congruence|done]. }
      exists (m ++ pre), k, ph, post, (v ++ opre).
      split; [by rewrite <- app_assoc|]. split; [done|]. split; [done|]. split.
      * by econstructor.
      * rewrite (var_replacer_Some _ _ Hg), bind_ret_l, result_bind, Hres. done.
    + exists [], g, m, rest, [].
      split; [done|]. split; [done|]. split; [done|]. split; [constructor|].
      by rewrite (var_replacer_None _ Hg).
Qed.

End variable_pass.

(** ** What [re.sub] calls

    The replacement function is called on the groups that [findall] lists
    and on nothing else: the trace and a failure of the scan come from
    these calls. *)

Lemma sub_from_trace_in (P : event -> Prop) p repl : forall s k,
  (forall g, g ∈ findall_from p k s -> Forall P (trace (repl g))) ->
  Forall P (trace (sub_from p repl k s)).
Proof.
  induction s as [|c s IH]; intros k Hrepl; simpl.
  - constructor.
  - simpl in Hrepl. destruct k as [|k]; [|by apply IH].
    destruct (re_match p (c :: s) []) as [[g rest]|].
    + rewrite trace_bind. apply Forall_app. split; [apply Hrepl; by left|].
      destruct (result (repl g)); try constructor.
      rewrite trace_bind. apply Forall_app. split.
      * apply IH. intros g' Hg'. apply Hrepl. by right.
      * destruct (result _); constructor.
    + rewrite trace_bind. apply Forall_app. split; [by apply IH|].
      destruct (result _); constructor.
Qed.

Lemma sub_trace_in (P : event -> Prop) p repl s :
  (forall g, g ∈ findall p s -> Forall P (trace (repl g))) ->
  Forall P (trace (sub p repl s)).
Proof. apply sub_from_trace_in. Qed.

Lemma sub_from_fails p repl : forall s k o,
  result (sub_from p repl k s) = o ->
  (forall a, o <> Ok a) ->
  exists g, g ∈ findall_from p k s /\ result (repl g) = o.
Proof.
  induction s as [|c s IH]; intros k o Hres Hfail; simpl in *.
  - by destruct (Hfail []).
  - destruct k as [|k]; [|by apply IH].
    destruct (re_match p (c :: s) []) as [[g rest]|].
    + rewrite result_bind in Hres.
      destruct (result (repl g)) as [r| |] eqn:Hg.
      * rewrite result_bind in Hres.
        destruct (result (sub_from p repl _ s)) as [out| |] eqn:Hs;
          [by destruct (Hfail (r ++ out))|..];
          (destruct (IH _ _ Hs) as (g' & Hin & Hg'); [done|]);
          exists g'; (split; [by right|congruence]).
      * exists g. split; [by left|congruence].
      * exists g. split; [by left|congruence].
    + rewrite result_bind in Hres.
      destruct (result (sub_from p repl 0 s)) as [out| |] eqn:Hs;
        [by destruct (Hfail (c :: out))|..];
        (destruct (IH _ _ Hs) as (g' & Hin & Hg'); [done|]);
        exists g'; (split; [done|congruence]).
Qed.

Lemma sub_fails p repl s o :
  result (sub p repl s) = o ->
  (forall a, o <> Ok a) ->
  exists g, g ∈ findall p s /\ result (repl g) = o.
Proof. apply sub_from_fails. Qed.

(** Two replacement functions that agree where the first one does not
    diverge give the same scan, when the first scan does not diverge. *)
Lemma sub_from_agree p repl1 repl2 : forall s k,
  (forall g, g ∈ findall_from p k s ->
     result (repl1 g) <> Diverge -> repl2 g = repl1 g) ->
  result (sub_from p repl1 k s) <> Diverge ->
  sub_from p repl2 k s = sub_from p repl1 k s.
Proof.
  induction s as [|c s IH]; intros k Hag Hnd; simpl in *; [done|].
  destruct k as [|k]; [|by apply IH].
  destruct (re_match p (c :: s) []) as [[g rest]|].
  - rewrite result_bind in Hnd.
    assert (result (repl1 g) <> Diverge) as Hg
      by (intros E; by rewrite E in Hnd).
    rewrite (Hag g) by (done || by left).
    destruct (repl1 g) as [l [r|e|]]; simpl in *; try done.
    rewrite result_bind in Hnd.
    rewrite IH; [done| |].
    + intros g' Hg'. apply Hag. by right.
    + intros E. by rewrite E in Hnd.
  - rewrite result_bind in Hnd. rewrite IH; [done|done|].
    intros E. by rewrite E in Hnd.
Qed.

Lemma sub_agree p repl1 repl2 s :
  (forall g, g ∈ findall p s ->
     result (repl1 g) <> Diverge -> repl2 g = repl1 g) ->
  result (sub p repl1 s) <> Diverge ->
  sub p repl2 s = sub p repl1 s.
Proof. apply sub_from_agree. Qed.

(** ** The renderer *)

Section render_claims.

Variable ROOT_DIR : Path.

Abbreviation T := (TEMPLATES_DIR ROOT_DIR).
Abbreviation render := (_render_template ROOT_DIR).

Lemma read_text_File fs path text :
  fs !! path = Some (File text) ->
  read_text fs path = ([ReadText path], Ok text).
Proof. unfold read_text. by intros ->. Qed.

(** A call that passes the cycle check and reads its file is the include
    pass followed by the variable pass. *)
Lemma render_passes n fs path ctx stack text :
  path ∉ stack ->
  fs !! path = Some (File text) ->
  render (S n) fs path ctx stack =
  let* _ := tell (Enter path stack) in
  let* _ := tell (ReadText path) in
  let* text' :=
    sub INCLUDE_RE (include_replacer ROOT_DIR n fs path ctx stack) text in
  sub VAR_RE (var_replacer ctx path) text'.
Proof.
  intros Hin Hfs. rewrite render_unfold.
  rewrite bool_decide_eq_false_2 by done.
  rewrite (read_text_File _ _ _ Hfs). simpl.
  destruct (sub INCLUDE_RE _ text) as [l [t| |]]; simpl; try done.
Qed.

Lemma render_result n fs path ctx stack text :
  path ∉ stack ->
  fs !! path = Some (File text) ->
  result (render (S n) fs path ctx stack) =
  result (let* text' :=
            sub INCLUDE_RE (include_replacer ROOT_DIR n fs path ctx stack) text in
          sub VAR_RE (var_replacer ctx path) text').
Proof.
  intros Hin Hfs. rewrite (render_passes _ _ _ _ _ _ Hin Hfs).
  by rewrite !result_bind.
Qed.

(** C2: a template without include directive, rendered with a context that
    has a value for the identifier of every placeholder of its text, gives
    the text with every placeholder replaced by the value of its identifier
    and every other character unchanged. *)
Theorem render_substitutes_placeholders n fs path ctx text :
  fs !! path = Some (File text) ->
  no_include text ->
  (forall k ph, is_placeholder k ph -> occurs_in ph text -> is_Some (ctx !! k)) ->
  exists out,
    result (render (S n) fs path ctx []) = Ok out /\
    Substituted ctx text out.
Proof.
  intros Hfs Hni Hkeys.
  destruct (all_keys_Substituted ctx text) as [out Hout].
  { intros k (ph & Hph & Hocc)%placeholder_findall. eauto. }
  exists out. split; [|done].
  rewrite (render_result _ _ _ _ _ text) by (done || apply not_elem_of_nil).
  rewrite (sub_no_include _ _ Hni), bind_ret_l.
  by rewrite (sub_vars_complete _ _ _ _ Hout).
Qed.

(** C10: in a template without include directive, the value put in place
    of a placeholder is copied as it is, whatever it contains: the output
    is the substituted text before the placeholder, the value, and the
    substituted text after the placeholder. *)
Theorem substituted_value_is_literal n fs path ctx pre k ph post v opre opost :
  fs !! path = Some (File (pre ++ ph ++ post)) ->
  no_include (pre ++ ph ++ post) ->
  is_placeholder k ph ->
  ctx !! k = Some v ->
  Substituted ctx pre opre ->
  Substituted ctx post opost ->
  result (render (S n) fs path ctx []) = Ok (opre ++ v ++ opost).
Proof.
  intros Hfs Hni Hph Hk Hpre Hpost.
  rewrite (render_result _ _ _ _ _ _ (not_elem_of_nil _) Hfs).
  rewrite (sub_no_include _ _ Hni), bind_ret_l.
  rewrite (sub_app_match _ _ var_match_iff placeholder_braces _ k ph post Hph).
  rewrite (sub_vars_complete _ _ _ _ Hpre), bind_ret_l.
  rewrite (var_replacer_Some _ _ _ _ Hk), bind_ret_l.
  by rewrite (sub_vars_complete _ _ _ _ Hpost), bind_ret_l.
Qed.

(** C3: when the text of a call, after its include directives are
    expanded, has a placeholder whose identifier is not a key of the
    context, the call raises the missing-variable error, whose message
    gives the identifier of the leftmost such placeholder and the path of
    the template being rendered. *)
Theorem missing_variable_raises n fs path ctx stack text text' k ph :
  path ∉ stack ->
  fs !! path = Some (File text) ->
  result (sub INCLUDE_RE (include_replacer ROOT_DIR n fs path ctx stack) text)
    = Ok text' ->
  is_placeholder k ph -> occurs_in ph text' -> ctx !! k = None ->
  exists pre k' ph' post opre,
    text' = pre ++ ph' ++ post /\ is_placeholder k' ph' /\
    ctx !! k' = None /\ Substituted ctx pre opre /\
    result (render (S n) fs path ctx stack) =
    Raise (KeyError (lit "Missing template variable '" ++ k' ++ lit "' for "
                       ++ path_str path)).
Proof.
  intros Hin Hfs Hexp Hph Hocc Hk.
  destruct (sub_vars_missing ctx path text')
    as (pre & k' & ph' & post & opre & Heq & Hph' & Hk' & Hpre & Hres).
  { exists k. split; [|done]. apply placeholder_findall. eauto. }
  exists pre, k', ph', post, opre. repeat (split; [done|]).
  by rewrite (render_result _ _ _ _ _ _ Hin Hfs), result_bind, Hexp.
Qed.

(** C4 as amended: a call that passes the cycle check and whose text has an
    include directive for a path that does not exist, the directives before
    it being expanded without error, raises the missing-include error,
    whose message names the missing file. *)
Theorem missing_include_raises n fs path ctx stack pre rel d post opre :
  path ∉ stack ->
  fs !! path = Some (File (pre ++ d ++ post)) ->
  is_include_directive rel d ->
  fs !! joinpath T rel = None ->
  result (sub INCLUDE_RE (include_replacer ROOT_DIR n fs path ctx stack) pre)
    = Ok opre ->
  result (render (S n) fs path ctx stack) =
  Raise (FileNotFoundError
           (lit "Missing included template: " ++ path_str (joinpath T rel))).
Proof.
  intros Hin Hfs Hd Hmiss Hpre.
  rewrite (render_result _ _ _ _ _ _ Hin Hfs).
  rewrite (sub_app_match _ _ include_match_iff include_braces _ rel d post Hd).
  rewrite !result_bind, Hpre.
  unfold include_replacer at 1, path_exists. by rewrite Hmiss.
Qed.

Lemma render_result_Dir n (fs : gmap Path entry) path ctx stack :
  path ∉ stack ->
  fs !! path = Some Dir ->
  result (render (S n) fs path ctx stack) =
  Raise (IsADirectoryError (os_error "[Errno 21] Is a directory" path)).
Proof.
  intros Hin Hfs. rewrite render_unfold, result_bind. simpl.
  rewrite bool_decide_eq_false_2 by done.
  rewrite result_bind. unfold read_text. rewrite result_bind. simpl.
  by rewrite Hfs.
Qed.

Lemma render_result_absent n (fs : gmap Path entry) path ctx stack :
  path ∉ stack ->
  fs !! path = None ->
  result (render (S n) fs path ctx stack) = Raise (absent_error fs path).
Proof.
  intros Hin Hfs. rewrite render_unfold, result_bind. simpl.
  rewrite bool_decide_eq_false_2 by done.
  rewrite result_bind. unfold read_text. rewrite result_bind. simpl.
  by rewrite Hfs.
Qed.

Lemma render_ok_passes n (fs : gmap Path entry) path ctx stack :
  is_ok (result (render (S n) fs path ctx stack)) = true ->
  (path ∉ stack) /\ (exists text, fs !! path = Some (File text)).
Proof.
  intros Hok. destruct (decide (path ∈ stack)) as [Hin|Hin].
  { exfalso. revert Hok. rewrite render_unfold, result_bind. simpl.
    rewrite bool_decide_eq_true_2 by done. rewrite result_bind.
    by destruct (result (mapM _ _)). }
  split; [done|]. destruct (fs !! path) as [[|text]|] eqn:Hfs; [|eauto|].
  - by rewrite (render_result_Dir _ _ _ _ _ Hin Hfs) in Hok.
  - by rewrite (render_result_absent _ _ _ _ _ Hin Hfs) in Hok.
Qed.

End render_claims.

(** ** The render stack *)

Section stack_claims.

Variable ROOT_DIR : Path.

Abbreviation T := (TEMPLATES_DIR ROOT_DIR).
Abbreviation render := (_render_template ROOT_DIR).

Lemma absent_error_not_cycle fs path : ~ is_cycle_exn (absent_error fs path).
Proof. unfold absent_error. destruct (below_file fs path); simpl; tauto. Qed.

Lemma var_replacer_trace ctx path g : trace (var_replacer ctx path g) = [].
Proof. unfold var_replacer. by destruct (ctx !! g). Qed.

Lemma var_replacer_result ctx path g :
  (exists v, result (var_replacer ctx path g) = Ok v) \/
  (exists msg, result (var_replacer ctx path g) = Raise (KeyError msg)).
Proof. unfold var_replacer. destruct (ctx !! g); simpl; eauto. Qed.

Lemma var_pass_trace ctx path text :
  trace (sub VAR_RE (var_replacer ctx path) text) = [].
Proof.
  assert (Forall (fun _ => False)
            (trace (sub VAR_RE (var_replacer ctx path) text))) as H.
  { apply sub_trace_Forall. intros g. rewrite var_replacer_trace. constructor. }
  destruct (trace _); [done|]. by apply Forall_cons in H as [[] _].
Qed.

(** A property of events that holds of the call itself, when its stack has
    no path twice, and is kept by the calls for the include directives,
    holds of the whole trace. *)
Lemma render_stack_distinct n : forall fs path ctx stack,
  NoDup stack ->
  Forall distinct_stack (trace (render n fs path ctx stack)).
Proof.
  induction n as [|n IH]; intros fs path ctx stack Hnd; [constructor|].
  rewrite render_unfold, trace_bind. simpl.
  assert (path ∉ stack -> NoDup (stack ++ [path])) as Hsnoc.
  { intros Hin. apply NoDup_app. split; [done|]. split.
    - intros x Hx ->%list_elem_of_singleton. done.
    - apply NoDup_singleton. }
  constructor; [by split|].
  destruct (bool_decide (path ∈ stack)) eqn:Hin.
  - rewrite trace_bind, mapM_rel_str_trace. simpl.
    destruct (result _); constructor.
  - apply bool_decide_eq_false in Hin.
    rewrite trace_bind. apply Forall_app. split.
    { unfold read_text. rewrite trace_bind. simpl. constructor; [done|].
      destruct (fs !! path) as [[]|]; constructor. }
    destruct (result (read_text fs path)); try constructor.
    rewrite trace_bind. apply Forall_app. split.
    + apply sub_trace_Forall. intros g. unfold include_replacer.
      destruct (path_exists _ _); [by apply IH, Hsnoc|constructor].
    + destruct (result _); try constructor.
      rewrite var_pass_trace. constructor.
Qed.

(** C8: in a top-level render, which starts with the empty stack, every
    call of the renderer receives a stack without repeated path, and the
    stack extended with the path of a call that passes the cycle check has
    no repeated path either. *)
Theorem render_stacks_have_distinct_paths n fs path ctx :
  Forall distinct_stack (trace (render n fs path ctx [])).
Proof. apply render_stack_distinct, NoDup_nil_2. Qed.

(** *** Cycles *)

Section include_graph.

Variable fs : gmap Path entry.

Lemma includes_findall p text rel :
  fs !! p = Some (File text) ->
  rel ∈ findall INCLUDE_RE text ->
  includes ROOT_DIR fs p (joinpath T rel).
Proof.
  intros Hfs (d & Hd & Hocc)%(findall_occurs _ _ include_match_iff include_braces).
  by exists text, rel, d.
Qed.

Lemma chain_to_not_in root stack path :
  acyclic_from ROOT_DIR fs root -> chain_to ROOT_DIR fs root stack path -> path ∉ stack.
Proof. intros Hac [Hreach Hst] Hin. exact (Hac path Hreach (Hst _ Hin)). Qed.

Lemma chain_to_step root stack path text rel :
  chain_to ROOT_DIR fs root stack path ->
  fs !! path = Some (File text) ->
  rel ∈ findall INCLUDE_RE text ->
  chain_to ROOT_DIR fs root (stack ++ [path]) (joinpath T rel).
Proof.
  intros [Hreach Hst] Hfs Hrel.
  pose proof (includes_findall _ _ _ Hfs Hrel) as Hinc. split.
  - eapply rtc_r; eauto.
  - intros q [Hq| ->%list_elem_of_singleton]%elem_of_app.
    + eapply tc_r; eauto.
    + by apply tc_once.
Qed.

Lemma render_no_cycle_event root ctx (Hac : acyclic_from ROOT_DIR fs root) n :
  forall path stack,
  chain_to ROOT_DIR fs root stack path ->
  Forall no_cycle_event (trace (render n fs path ctx stack)).
Proof.
  induction n as [|n IH]; intros path stack Hch; [constructor|].
  pose proof (chain_to_not_in _ _ _ Hac Hch) as Hin.
  rewrite render_unfold, trace_bind. simpl.
  constructor; [done|].
  rewrite bool_decide_eq_false_2 by done.
  rewrite trace_bind. apply Forall_app. split.
  { unfold read_text. rewrite trace_bind. simpl. constructor; [done|].
    destruct (fs !! path) as [[]|]; constructor. }
  unfold read_text. rewrite result_bind. simpl.
  destruct (fs !! path) as [[|text]|] eqn:Hfs; simpl; try constructor.
  rewrite trace_bind. apply Forall_app. split.
  - apply sub_trace_in. intros g Hg. unfold include_replacer.
    destruct (path_exists _ _); [|constructor].
    apply IH. by eapply chain_to_step.
  - destruct (result _); try constructor.
    rewrite var_pass_trace. constructor.
Qed.

Lemma render_no_cycle_exn root ctx (Hac : acyclic_from ROOT_DIR fs root) n :
  forall path stack e,
  chain_to ROOT_DIR fs root stack path ->
  result (render n fs path ctx stack) = Raise e ->
  ~ is_cycle_exn e.
Proof.
  induction n as [|n IH]; intros path stack e Hch; [done|].
  pose proof (chain_to_not_in _ _ _ Hac Hch) as Hin.
  rewrite render_unfold, result_bind. simpl.
  rewrite bool_decide_eq_false_2 by done.
  rewrite result_bind. unfold read_text. rewrite result_bind. simpl.
  destruct (fs !! path) as [[|text]|] eqn:Hfs; simpl;
    [intros [= <-]; simpl; tauto| |intros [= <-]; apply absent_error_not_cycle].
  rewrite result_bind.
  destruct (result (sub INCLUDE_RE _ text)) as [text'| |] eqn:Hinc; [| |done].
  - intros Hvar.
    destruct (sub_fails _ _ _ _ Hvar) as (g & _ & Hg); [done|].
    destruct (var_replacer_result ctx path g) as [[v Hv]|[msg Hmsg]];
      [congruence|].
    rewrite Hmsg in Hg. injection Hg as <-. simpl. tauto.
  - intros [= ->].
    destruct (sub_fails _ _ _ _ Hinc) as (g & Hgin & Hg); [done|].
    unfold include_replacer in Hg. destruct (path_exists _ _).
    + eapply IH; [|exact Hg]. by eapply chain_to_step.
    + injection Hg as <-. simpl. tauto.
Qed.

End include_graph.

End stack_claims.

(** ** Termination and fuel *)

Section fuel.

Variable ROOT_DIR : Path.

Abbreviation T := (TEMPLATES_DIR ROOT_DIR).
Abbreviation render := (_render_template ROOT_DIR).

Lemma stack_bound (fs : gmap Path entry) (stack : list Path) :
  NoDup stack ->
  (forall q, q ∈ stack -> is_Some (fs !! q)) ->
  (length stack <= size fs)%nat.
Proof.
  intros Hnd Hin.
  rewrite <- (length_map_to_list fs), <- (length_fmap fst (map_to_list fs)).
  apply submseteq_length, NoDup_submseteq; [done|].
  intros q [e He]%Hin. apply list_elem_of_fmap.
  exists (q, e). split; [done|]. by apply elem_of_map_to_list.
Qed.

Lemma mapM_rel_str_result base ps :
  result (mapM (rel_str base) ps) <> Diverge.
Proof.
  induction ps as [|p ps IH]; [done|]. simpl.
  rewrite result_bind. unfold rel_str at 1.
  destruct (relative_to p base); simpl; [|done].
  rewrite result_bind. by destruct (result (mapM _ ps)).
Qed.

(** The renderer returns or raises: a stack of distinct existing files is
    no longer than the file system is large. *)
Lemma render_terminates_from n : forall (fs : gmap Path entry) path ctx stack,
  NoDup stack ->
  (forall q, q ∈ stack -> is_Some (fs !! q)) ->
  (size fs < length stack + n)%nat ->
  result (render n fs path ctx stack) <> Diverge.
Proof.
  induction n as [|n IH]; intros fs path ctx stack Hnd Hin Hsize.
  - pose proof (stack_bound fs stack Hnd Hin). lia.
  - rewrite render_unfold, result_bind. simpl.
    destruct (bool_decide (path ∈ stack)) eqn:Hp.
    + rewrite result_bind.
      pose proof (mapM_rel_str_result T (stack ++ [path])).
      by destruct (result (mapM _ _)).
    + apply bool_decide_eq_false in Hp.
      rewrite result_bind. unfold read_text. rewrite result_bind. simpl.
      destruct (fs !! path) as [[|text]|] eqn:Hfs; simpl; try done.
      rewrite result_bind.
      destruct (result (sub INCLUDE_RE _ text)) as [text'| |] eqn:Hinc; [|done|].
      * intros Hvar.
        destruct (sub_fails _ _ _ _ Hvar) as (g & _ & Hg); [done|].
        destruct (var_replacer_result ctx path g) as [[v Hv]|[msg Hmsg]];
          congruence.
      * intros _.
        destruct (sub_fails _ _ _ _ Hinc) as (g & _ & Hg); [done|].
        unfold include_replacer in Hg.
        destruct (path_exists _ _); [|done].
        revert Hg. apply IH.
        -- apply NoDup_app. split; [done|]. split; [|apply NoDup_singleton].
           by intros x Hx ->%list_elem_of_singleton.
        -- intros q [Hq| ->%list_elem_of_singleton]%elem_of_app; [auto|].
           by rewrite Hfs.
        -- rewrite length_app. simpl. lia.
Qed.

Lemma render_terminates (fs : gmap Path entry) path ctx :
  result (render (S (size fs)) fs path ctx []) <> Diverge.
Proof.
  apply render_terminates_from; [apply NoDup_nil_2| |simpl; lia].
  by intros q ?%elem_of_nil.
Qed.

(** More fuel does not change a run that did not run out of fuel. *)
Lemma render_fuel_mono n : forall m fs path ctx stack,
  (n <= m)%nat ->
  result (render n fs path ctx stack) <> Diverge ->
  render m fs path ctx stack = render n fs path ctx stack.
Proof.
  induction n as [|n IH]; intros m fs path ctx stack Hle Hnd; [done|].
  destruct m as [|m]; [lia|].
  destruct (decide (path ∈ stack)) as [Hin|Hin].
  { rewrite !render_unfold. by rewrite bool_decide_eq_true_2. }
  destruct (fs !! path) as [[|text]|] eqn:Hfs.
  - rewrite !render_unfold, bool_decide_eq_false_2 by done.
    unfold read_text. by rewrite Hfs.
  - rewrite (render_result _ _ _ _ _ _ _ Hin Hfs), result_bind in Hnd.
    rewrite !(render_passes _ _ _ _ _ _ _ Hin Hfs).
    rewrite (sub_agree INCLUDE_RE
               (include_replacer ROOT_DIR n fs path ctx stack)
               (include_replacer ROOT_DIR m fs path ctx stack)); [done| |].
    + intros g _ Hg. unfold include_replacer in *.
      destruct (path_exists _ _); [|done]. apply IH; [lia|done].
    + intros E. by rewrite E in Hnd.
  - rewrite !render_unfold, bool_decide_eq_false_2 by done.
    unfold read_text. by rewrite Hfs.
Qed.

(** Every amount of fuel above the size of the file system gives the same
    run. *)
Lemma render_enough_fuel (fs : gmap Path entry) path ctx n :
  (size fs < n)%nat ->
  render n fs path ctx [] = render (S (size fs)) fs path ctx [].
Proof.
  intros Hn. apply render_fuel_mono; [lia|apply render_terminates].
Qed.

(** *** A test for acyclic include graphs *)

Lemma ranked_decreases (fs : gmap Path entry) rank p q :
  ranked ROOT_DIR fs rank = true ->
  includes ROOT_DIR fs p q -> (rank q < rank p)%nat.
Proof.
  unfold ranked. rewrite forallb_forall.
  intros Hr (text & rel & d & Hfs & Hd & Hocc & ->).
  specialize (Hr (p, File text)). simpl in Hr.
  rewrite forallb_forall in Hr.
  apply Nat.ltb_lt, Hr.
  - apply list_elem_of_In. by apply elem_of_map_to_list.
  - apply list_elem_of_In.
    apply (findall_occurs _ _ include_match_iff include_braces). eauto.
Qed.

Lemma ranked_acyclic (fs : gmap Path entry) rank root :
  ranked ROOT_DIR fs rank = true -> acyclic_from ROOT_DIR fs root.
Proof.
  intros Hr q _ Hcyc.
  assert (forall a b, tc (includes ROOT_DIR fs) a b -> (rank b < rank a)%nat) as H.
  { induction 1 as [a b Hab|a b c Hab _ IH].
    - by eapply ranked_decreases.
    - pose proof (ranked_decreases _ _ _ _ Hr Hab). lia. }
  specialize (H _ _ Hcyc). lia.
Qed.

End fuel.

(** ** The renderer computes the expansion *)

Section expansion.

Variable ROOT_DIR : Path.
Variable fs : gmap Path entry.
Variable ctx : gmap str str.

Abbreviation T := (TEMPLATES_DIR ROOT_DIR).
Abbreviation render := (_render_template ROOT_DIR).

Lemma reads_in_app tr1 tr2 :
  reads_in (tr1 ++ tr2) = reads_in tr1 ++ reads_in tr2.
Proof. apply omap_app. Qed.

Lemma no_include_prefix c s :
  re_match INCLUDE_RE (c :: s) [] = None <->
  forall rel d tl, is_include_directive rel d -> c :: s <> d ++ tl.
Proof.
  split.
  - intros Hno rel d tl Hd Heq.
    assert (re_match INCLUDE_RE (c :: s) [] = Some (rel, tl)) as H.
    { apply include_match_iff. by exists d. }
    congruence.
  - intros H.
    destruct (re_match INCLUDE_RE (c :: s) []) as [[rel tl]|] eqn:Hm; [|done].
    apply include_match_iff in Hm as (d & Hd & Heq). by destruct (H rel d tl).
Qed.

(** *** What the renderer returns is the expansion *)

Lemma include_pass_sound n path stack
    (IH : forall p st out,
        result (render n fs p ctx st) = Ok out ->
        Rendered ROOT_DIR fs ctx p out
          (reads_in (trace (render n fs p ctx st)))) text :
  forall text',
    result (sub INCLUDE_RE (include_replacer ROOT_DIR n fs path ctx stack) text)
      = Ok text' ->
    Expanded ROOT_DIR fs ctx text text'
      (reads_in
         (trace (sub INCLUDE_RE
                   (include_replacer ROOT_DIR n fs path ctx stack) text))).
Proof.
  pattern text.
  apply (scan_ind _ _ include_match_iff include_braces);
    [|intros c s Hno IHs|intros rel d rest Hd IHs]; intros text'.
  - intros [= <-]. constructor.
  - rewrite (sub_nomatch _ _ _ _ Hno), result_bind, trace_bind.
    destruct (result (sub INCLUDE_RE _ s)) as [o| |] eqn:Ho; try done.
    intros [= <-]. simpl. rewrite app_nil_r.
    constructor; [by apply no_include_prefix|by apply IHs].
  - rewrite (sub_match _ _ include_match_iff include_braces _ (d ++ rest) rel rest)
      by (apply include_match_iff; by exists d).
    rewrite result_bind, trace_bind.
    destruct (result (include_replacer ROOT_DIR n fs path ctx stack rel))
      as [r| |] eqn:Hr; try done.
    rewrite result_bind, trace_bind.
    destruct (result (sub INCLUDE_RE _ rest)) as [o| |] eqn:Ho; try done.
    intros [= <-]. simpl. rewrite app_nil_r, reads_in_app.
    econstructor; [done| |by apply IHs].
    revert Hr. unfold include_replacer.
    destruct (path_exists fs (joinpath T rel)); [apply IH|done].
Qed.

Lemma render_sound n : forall p stack out,
  result (render n fs p ctx stack) = Ok out ->
  Rendered ROOT_DIR fs ctx p out
    (reads_in (trace (render n fs p ctx stack))).
Proof.
  induction n as [|n IH]; intros p stack out Hok; [done|].
  destruct (render_ok_passes ROOT_DIR n fs p ctx stack) as (Hin & text & Hfs).
  { by rewrite Hok. }
  revert Hok. rewrite (render_passes _ _ _ _ _ _ _ Hin Hfs).
  rewrite !result_bind, !trace_bind. simpl.
  pose proof (include_pass_sound n p stack IH text) as Hinc.
  destruct (result (sub INCLUDE_RE _ text)) as [text'| |] eqn:Ht; try done.
  intros Hv. rewrite var_pass_trace, app_nil_r.
  econstructor; [done|by apply Hinc|].
  by eapply sub_vars_sound.
Qed.

(** *** The expansion is what the renderer returns *)

Section acyclic.

Variable root : Path.
Hypothesis Hac : acyclic_from ROOT_DIR fs root.

Lemma render_complete p out reads :
  Rendered ROOT_DIR fs ctx p out reads ->
  renders_as ROOT_DIR fs ctx root p out reads.
Proof.
  revert p out reads.
  apply (Rendered_mut ROOT_DIR fs ctx (renders_as ROOT_DIR fs ctx root)
           (expands_as ROOT_DIR fs ctx root)).
  - intros p text text' out reads Hfs _ IH Hsub stack Hch.
    destruct (IH p [] stack Hfs Hch) as (n & tr & Hreads & Hn).
    exists (S n), (Enter p stack :: ReadText p :: tr).
    split; [simpl; by rewrite Hreads|].
    intros [|m] Hm; [lia|].
    rewrite (render_passes _ _ _ _ _ _ _ (chain_to_not_in _ _ _ _ _ Hac Hch) Hfs).
    rewrite (Hn m) by lia.
    unfold bind, tell. simpl.
    rewrite (sub_vars_complete _ p _ _ Hsub).
    unfold ret. simpl. by rewrite app_nil_r.
  - intros p pre stack _ _. exists 0%nat, []. by split.
  - intros rel d rest r out reads1 reads2 Hd Hr IHr _ IHe p pre stack Hfs Hch.
    assert (chain_to ROOT_DIR fs root (stack ++ [p]) (joinpath T rel)) as Hch'.
    { eapply chain_to_step; [done|done|].
      apply (findall_occurs _ _ include_match_iff include_braces).
      exists d. split; [done|]. by exists pre, rest. }
    destruct (IHr _ Hch') as (n1 & tr1 & Hreads1 & Hn1).
    destruct (IHe p (pre ++ d) stack) as (n2 & tr2 & Hreads2 & Hn2);
      [by rewrite <- app_assoc|done|].
    exists (n1 `max` n2)%nat, (tr1 ++ tr2).
    split; [by rewrite reads_in_app, Hreads1, Hreads2|].
    intros m Hm.
    rewrite (sub_match _ _ include_match_iff include_braces _ (d ++ rest) rel rest)
      by (apply include_match_iff; by exists d).
    rewrite (Hn2 m) by lia.
    unfold include_replacer at 1, path_exists.
    inversion Hr as [? text0 ? ? ? Hfs0]; subst. rewrite Hfs0.
    rewrite (Hn1 m) by lia.
    unfold bind, ret. simpl. by rewrite app_nil_r.
  - intros c rest out reads Hno _ IHe p pre stack Hfs Hch.
    destruct (IHe p (pre ++ [c]) stack) as (n & tr & Hreads & Hn);
      [by rewrite <- app_assoc|done|].
    exists n, tr. split; [done|]. intros m Hm.
    apply no_include_prefix in Hno.
    rewrite (sub_nomatch _ _ _ _ Hno), (Hn m) by lia.
    unfold bind, ret. simpl. by rewrite app_nil_r.
Qed.

End acyclic.

(** With an acyclic include graph, the renderer returns [out] exactly when
    [out] is the expansion of the root template, and it reads the files of
    the expansion in its order. *)
Lemma render_is_expansion root out reads :
  acyclic_from ROOT_DIR fs root ->
  Rendered ROOT_DIR fs ctx root out reads <->
  result (render (S (size fs)) fs root ctx []) = Ok out /\
  reads_in (trace (render (S (size fs)) fs root ctx [])) = reads.
Proof.
  intros Hac. split.
  - intros H.
    destruct (render_complete root Hac root out reads H [])
      as (n & tr & Hreads & Hn).
    { split; [done|]. by intros q ?%elem_of_nil. }
    assert (render (S (size fs)) fs root ctx [] = (tr, Ok out)) as ->; [|done].
    rewrite <- (Hn (n `max` S (size fs))%nat) by lia.
    symmetry. apply render_fuel_mono; [lia|apply render_terminates].
  - intros [Hok <-]. by apply render_sound.
Qed.

End expansion.

Section acyclic_render.

Variable ROOT_DIR : Path.

Abbreviation T := (TEMPLATES_DIR ROOT_DIR).
Abbreviation render := (_render_template ROOT_DIR).

(** C5: when no template reachable from the root template includes itself,
    directly or through others, no call of the render takes the cycle
    branch and the render does not end with an exception of that branch;
    the render ends (with the fuel of the size of the file system); it
    returns [out] exactly when [out] is the expansion of the root template
    ([Rendered]: every include directive replaced by the expansion of the
    file it names, then every placeholder by its value), and then the files
    it reads are those of the expansion, in its order, a file being read
    once for each of its inclusions; and every occurrence of an include
    directive for an existing path, whatever comes before it in the text,
    is replaced by the result of a call of its own of the renderer on that
    path, which reads and expands the file again. *)
Theorem acyclic_render_never_cycles (fs : gmap Path entry) root ctx :
  acyclic_from ROOT_DIR fs root ->
  (forall n,
     Forall no_cycle_event (trace (render n fs root ctx [])) /\
     forall e, result (render n fs root ctx []) = Raise e -> ~ is_cycle_exn e) /\
  result (render (S (size fs)) fs root ctx []) <> Diverge /\
  (forall out reads,
     Rendered ROOT_DIR fs ctx root out reads <->
     result (render (S (size fs)) fs root ctx []) = Ok out /\
     reads_in (trace (render (S (size fs)) fs root ctx [])) = reads) /\
  (forall n path stack pre rel d post,
     is_include_directive rel d ->
     is_Some (fs !! joinpath T rel) ->
     sub INCLUDE_RE (include_replacer ROOT_DIR n fs path ctx stack)
         (pre ++ d ++ post) =
     let* o1 := sub INCLUDE_RE (include_replacer ROOT_DIR n fs path ctx stack) pre in
     let* r := render n fs (joinpath T rel) ctx (stack ++ [path]) in
     let* o2 := sub INCLUDE_RE (include_replacer ROOT_DIR n fs path ctx stack) post in
     ret (o1 ++ r ++ o2)).
Proof.
  intros Hac.
  assert (chain_to ROOT_DIR fs root [] root) as Hch.
  { split; [apply rtc_refl|]. by intros q ?%elem_of_nil. }
  split; [|split; [|split]].
  - intros n. split.
    + by eapply render_no_cycle_event.
    + intros e. by eapply render_no_cycle_exn.
  - apply render_terminates.
  - intros out reads. by apply render_is_expansion.
  - intros n path stack pre rel d post Hd [e He].
    rewrite (sub_app_match _ _ include_match_iff include_braces _ rel d post Hd).
    unfold include_replacer at 2, path_exists. by rewrite He.
Qed.

End acyclic_render.

(** ** Instances on the example data *)

Lemma site_builds : is_ok (result (main ex_root 3 fs_site)) = true.
Proof. vm_compute. reflexivity. Qed.


Example hello_world :
  result (_render_template ex_root 1 fs_pages (tpl "page.html") ctx_hello [])
  = Ok (lit "Hello World!").
Proof. vm_compute. reflexivity. Qed.

Lemma render_substitutes_placeholders_witness :
  exists out,
    result (_render_template ex_root 1 fs_pages (tpl "page.html") ctx_hello [])
      = Ok out /\
    Substituted ctx_hello (lit "Hello {{name}}!") out.
Proof.
  apply (render_substitutes_placeholders ex_root 0 fs_pages (tpl "page.html")
           ctx_hello (lit "Hello {{name}}!")).
  - vm_compute. reflexivity.
  - apply no_include_findall. vm_compute. reflexivity.
  - intros k ph Hph Hocc.
    assert (k ∈ findall VAR_RE (lit "Hello {{name}}!")) as Hin
      by (apply placeholder_findall; eauto).
    vm_compute in Hin. apply list_elem_of_singleton in Hin as ->.
    eexists. vm_compute. reflexivity.
Defined.

Example value_with_placeholder_text :
  result (_render_template ex_root 1 fs_pages (tpl "value.html") ctx_value [])
  = Ok (lit "<{{other}}>X").
Proof. vm_compute. reflexivity. Qed.

Lemma substituted_value_is_literal_witness :
  ctx_value !! lit "a" = Some (lit "{{other}}") /\
  ctx_value !! lit "other" = Some (lit "X") /\
  result (_render_template ex_root 1 fs_pages (tpl "value.html") ctx_value [])
  = Ok (lit "<" ++ lit "{{other}}" ++ lit ">X").
Proof.
  split; [vm_compute; reflexivity|]. split; [vm_compute; reflexivity|].
  apply (substituted_value_is_literal ex_root 0 fs_pages (tpl "value.html")
           ctx_value (lit "<") (lit "a") (lit "{{a}}") (lit ">{{other}}")).
  - vm_compute. reflexivity.
  - apply no_include_findall. vm_compute. reflexivity.
  - exists [], []. repeat split; try done; repeat constructor.
  - vm_compute. reflexivity.
  - apply (sub_vars_sound ctx_value (tpl "value.html")).
    vm_compute. reflexivity.
  - apply (sub_vars_sound ctx_value (tpl "value.html")).
    vm_compute. reflexivity.
Defined.

Lemma missing_variable_raises_witness :
  exists pre k' ph' post opre,
    lit "P and {{ nokey }}" = pre ++ ph' ++ post /\ is_placeholder k' ph' /\
    (∅ : gmap (list N) (list N)) !! k' = None /\ Substituted ∅ pre opre /\
    result (_render_template ex_root 2 fs_pages (tpl "novar.html") ∅ []) =
    Raise (KeyError (lit "Missing template variable '" ++ k' ++ lit "' for "
                       ++ path_str (tpl "novar.html"))).
Proof.
  apply (missing_variable_raises ex_root 1 fs_pages (tpl "novar.html") ∅ []
           (lit "{{include: part.html}} and {{ nokey }}")
           (lit "P and {{ nokey }}") (lit "nokey") (lit "{{ nokey }}")).
  - apply not_elem_of_nil.
  - vm_compute. reflexivity.
  - vm_compute. reflexivity.
  - exists [32], [32]. repeat split; try done; repeat constructor.
  - exists (lit "P and "), []. reflexivity.
  - reflexivity.
Defined.

Example missing_variable_message :
  result (_render_template ex_root 2 fs_pages (tpl "novar.html") ∅ []) =
  Raise (KeyError
           (lit "Missing template variable 'nokey' for /srv/site/templates/novar.html")).
Proof. vm_compute. reflexivity. Qed.

Lemma missing_include_raises_witness :
  result (_render_template ex_root 2 fs_pages (tpl "noinc.html") ∅ []) =
  Raise (FileNotFoundError
           (lit "Missing included template: /srv/site/templates/gone.html")).
Proof.
  apply (missing_include_raises ex_root 1 fs_pages (tpl "noinc.html") ∅ []
           (lit "A{{include: part.html}}B") (lit "gone.html")
           (lit "{{include: gone.html}}") (lit "C") (lit "APB")).
  - apply not_elem_of_nil.
  - vm_compute. reflexivity.
  - exists [], [32], []. repeat split; try done; repeat constructor.
  - vm_compute. reflexivity.
  - vm_compute. reflexivity.
Defined.

(** C4 as stated fails: the text of [first.html] has an include directive
    for [gone.html], which does not exist, and the call does not raise the
    missing-include error: the directive before it raises first, here the
    missing-variable error of [bad.html]. *)
Lemma earlier_error_preempts_missing_include :
  let text := lit "{{include: bad.html}}{{include: gone.html}}" in
  let d := lit "{{include: gone.html}}" in
  fs_pages !! tpl "first.html" = Some (File text) /\
  is_include_directive (lit "gone.html") d /\
  occurs_in d text /\
  fs_pages !! joinpath (TEMPLATES_DIR ex_root) (lit "gone.html") = None /\
  result (_render_template ex_root 3 fs_pages (tpl "first.html") ∅ []) =
  Raise (KeyError
           (lit "Missing template variable 'undefined' for /srv/site/templates/bad.html")).
Proof.
  intros text d. split; [vm_compute; reflexivity|]. split.
  { exists [], [32], []. repeat split; try done; repeat constructor. }
  split; [by exists (lit "{{include: bad.html}}"), []|].
  split; vm_compute; reflexivity.
Qed.

Lemma diamond_ranked : ranked ex_root fs_diamond rank_diamond = true.
Proof. vm_compute. reflexivity. Qed.

(** The diamond renders: [x.html] is read and expanded once for each of
    its two inclusions. *)
Example diamond_renders :
  result (_render_template ex_root 3 fs_diamond (tpl "d.html") ctx_diamond [])
    = Ok (lit "L(<x>)+R(<x>)") /\
  reads_of (tpl "x.html")
    (trace (_render_template ex_root 3 fs_diamond (tpl "d.html") ctx_diamond []))
    = 2%nat.
Proof. split; vm_compute; reflexivity. Qed.

Lemma acyclic_render_never_cycles_witness :
  acyclic_from ex_root fs_diamond (tpl "d.html") /\
  Rendered ex_root fs_diamond ctx_diamond (tpl "d.html")
    (lit "L(<x>)+R(<x>)")
    [tpl "d.html"; tpl "l.html"; tpl "x.html"; tpl "r.html"; tpl "x.html"] /\
  (forall n,
     Forall no_cycle_event
       (trace (_render_template ex_root n fs_diamond (tpl "d.html") ctx_diamond [])) /\
     forall e,
       result (_render_template ex_root n fs_diamond (tpl "d.html") ctx_diamond [])
         = Raise e -> ~ is_cycle_exn e) /\
  result (_render_template ex_root (S (size fs_diamond)) fs_diamond
            (tpl "d.html") ctx_diamond []) <> Diverge.
Proof.
  pose proof (ranked_acyclic ex_root fs_diamond rank_diamond (tpl "d.html")
                diamond_ranked) as Hac.
  split; [exact Hac|].
  destruct (acyclic_render_never_cycles ex_root fs_diamond (tpl "d.html")
              ctx_diamond Hac) as (H1 & H2 & H3 & _).
  split; [|split; [exact H1|exact H2]].
  apply (proj2 (H3 _ _)). split; vm_compute; reflexivity.
Defined.

Lemma render_stacks_have_distinct_paths_witness :
  Forall distinct_stack
    (trace (_render_template ex_root 3 fs_cycles (tpl "b.html") ∅ [])).
Proof. apply render_stacks_have_distinct_paths. Defined.

(** ** Further properties of the renderer *)

Section more_render.

Variable ROOT_DIR : Path.

Abbreviation T := (TEMPLATES_DIR ROOT_DIR).
Abbreviation render := (_render_template ROOT_DIR).

(** X1: the renderer always ends, whatever the includes of the files,
    cycles included: with more fuel than the file system has entries a
    top-level render does not run out of fuel, and every such amount of
    fuel gives the same trace and the same result. *)
Theorem render_ends_within_size_fuel (fs : gmap Path entry) path ctx n :
  (size fs < n)%nat ->
  result (render n fs path ctx []) <> Diverge /\
  render n fs path ctx [] = render (S (size fs)) fs path ctx [].
Proof.
  intros Hn. rewrite (render_enough_fuel _ _ _ _ _ Hn).
  split; [apply render_terminates|done].
Qed.

(** X2: a call whose path is on its stack, when the paths of the stack and
    the path lie under the template root, raises a [RuntimeError] whose
    message is the fixed prefix followed by these paths, each relative to
    the template root, from the outermost to the repeated one, joined by
    [" -> "]. *)
Theorem cycle_message_under_root n fs path ctx stack :
  path ∈ stack ->
  Forall (fun p => is_Some (relative_to p T)) (stack ++ [path]) ->
  result (render (S n) fs path ctx stack) =
  Raise (RuntimeError
           (lit "Template include cycle detected: "
              ++ join (lit " -> ") (map (rel_name T) (stack ++ [path])))).
Proof. apply cycle_error_under_root. Qed.

(** X4: the renderer only reads: the trace of a render holds calls of the
    renderer and reads of files, no write and no print. *)
Theorem render_only_reads n fs path ctx stack :
  Forall is_read_event (trace (render n fs path ctx stack)).
Proof. apply render_trace_reads. Qed.

End more_render.

Lemma render_ends_within_size_fuel_witness :
  (size fs_cycles < 10)%nat /\
  result (_render_template ex_root 10 fs_cycles (tpl "b.html") ∅ []) <> Diverge /\
  _render_template ex_root 10 fs_cycles (tpl "b.html") ∅ [] =
  _render_template ex_root (S (size fs_cycles)) fs_cycles (tpl "b.html") ∅ [].
Proof.
  assert (size fs_cycles < 10)%nat as H
    by (apply Nat.ltb_lt; vm_compute; reflexivity).
  split; [exact H|].
  exact (render_ends_within_size_fuel ex_root fs_cycles (tpl "b.html") ∅ 10 H).
Defined.

Lemma cycle_message_under_root_witness :
  result (_render_template ex_root 1 fs_cycles (tpl "a.html") ∅
            [tpl "b.html"; tpl "a.html"]) =
  Raise (RuntimeError
           (lit "Template include cycle detected: "
              ++ join (lit " -> ")
                   (map (rel_name (TEMPLATES_DIR ex_root))
                      ([tpl "b.html"; tpl "a.html"] ++ [tpl "a.html"])))).
Proof.
  apply (cycle_message_under_root ex_root 0 fs_cycles (tpl "a.html") ∅
           [tpl "b.html"; tpl "a.html"]).
  - apply list_elem_of_In. vm_compute. tauto.
  - repeat constructor; eexists; vm_compute; reflexivity.
Defined.

(** ** Paths under a base *)

Lemma parse_anchor_relative rel :
  head rel <> Some slash -> parse_anchor rel = 0%nat.
Proof.
  unfold parse_anchor. destruct rel as [|c rel]; [done|]. simpl.
  destruct (N.eqb_spec c slash) as [->|]; [by intros []|done].
Qed.

Lemma is_prefix_app xs ys : is_prefix xs (xs ++ ys) = true.
Proof.
  induction xs as [|x xs IH]; [done|]. simpl.
  by rewrite bool_decide_eq_true_2, IH.
Qed.

Lemma relative_to_app a ps qs :
  relative_to (mkPath a (ps ++ qs)) (mkPath a ps) = Some (mkPath 0 qs).
Proof.
  unfold relative_to. simpl.
  rewrite bool_decide_eq_true_2, is_prefix_app by done. simpl.
  by rewrite drop_app_length.
Qed.

Lemma relative_to_joinpath base rel :
  head rel <> Some slash ->
  relative_to (joinpath base rel) base = Some (mkPath 0 (parse_parts rel)).
Proof.
  intros H. unfold joinpath. rewrite (parse_anchor_relative _ H).
  destruct base as [a ps]. apply relative_to_app.
Qed.

Lemma all_relative_spec fs : all_relative fs = true -> relative_includes fs.
Proof.
  unfold all_relative. rewrite forallb_forall.
  intros Hr p text rel d Hfs Hd Hocc.
  specialize (Hr (p, File text)). simpl in Hr.
  rewrite forallb_forall in Hr.
  assert (negb (bool_decide (head rel = Some slash)) = true) as H.
  { apply Hr.
    - apply list_elem_of_In. by apply elem_of_map_to_list.
    - apply list_elem_of_In.
      apply (findall_occurs _ _ include_match_iff include_braces). eauto. }
  apply negb_true_iff, bool_decide_eq_false in H. done.
Qed.

Section more_includes.

Variable ROOT_DIR : Path.

Abbreviation T := (TEMPLATES_DIR ROOT_DIR).
Abbreviation render := (_render_template ROOT_DIR).

Lemma render_relative_no_ValueError (fs : gmap Path entry) ctx
    (Hrel : relative_includes fs) n :
  forall path stack e,
  Forall (fun p => is_Some (relative_to p T)) (stack ++ [path]) ->
  result (render n fs path ctx stack) = Raise e ->
  forall msg, e <> ValueError msg.
Proof.
  induction n as [|n IH]; intros path stack e Hunder; [done|].
  rewrite render_unfold, result_bind. simpl.
  destruct (bool_decide (path ∈ stack)) eqn:Hin.
  { rewrite (mapM_rel_str _ _ Hunder). simpl. by intros [= <-]. }
  apply bool_decide_eq_false in Hin.
  rewrite result_bind. unfold read_text. rewrite result_bind. simpl.
  destruct (fs !! path) as [[|text]|] eqn:Hfs; simpl;
    [by intros [= <-]|
    |intros [= <-] msg H; by apply (absent_error_not_cycle fs path); rewrite H].
  rewrite result_bind.
  destruct (result (sub INCLUDE_RE _ text)) as [text'| |] eqn:Hinc; [| |done].
  - intros Hvar.
    destruct (sub_fails _ _ _ _ Hvar) as (g & _ & Hg); [done|].
    destruct (var_replacer_result ctx path g) as [[v Hv]|[m Hm]];
      [congruence|].
    rewrite Hm in Hg. by injection Hg as <-.
  - intros [= ->].
    destruct (sub_fails _ _ _ _ Hinc) as (g & Hgin & Hg); [done|].
    unfold include_replacer in Hg. destruct (path_exists _ _).
    + eapply IH; [|exact Hg].
      apply Forall_app. split; [done|]. constructor; [|constructor].
      apply (findall_occurs _ _ include_match_iff include_braces) in Hgin
        as (d & Hd & Hocc).
      rewrite relative_to_joinpath by (by eapply Hrel). eauto.
    + by injection Hg as <-.
Qed.

(** X3: when no include directive of the file system has a path that
    starts with a slash, a render of a template under the template root
    never ends with the [ValueError] of [relative_to]: every cycle it meets
    is reported by the cycle error. *)
Theorem relative_includes_never_ValueError (fs : gmap Path entry) root ctx n msg :
  relative_includes fs ->
  is_Some (relative_to root T) ->
  result (render n fs root ctx []) <> Raise (ValueError msg).
Proof.
  intros Hrel Hroot Hres.
  eapply (render_relative_no_ValueError fs ctx Hrel n root []); [|exact Hres|done].
  by constructor.
Qed.

(** X5: an include directive whose path is an existing directory passes the
    existence test of the include pass; the call for the directory then
    fails when it reads it, and the render ends with that
    [IsADirectoryError], not with the missing-include error. *)
Theorem include_of_directory_raises n (fs : gmap Path entry) path ctx stack
    pre rel d post opre :
  path ∉ stack ->
  joinpath T rel ∉ stack ->
  fs !! path = Some (File (pre ++ d ++ post)) ->
  is_include_directive rel d ->
  fs !! joinpath T rel = Some Dir ->
  result (sub INCLUDE_RE (include_replacer ROOT_DIR (S n) fs path ctx stack) pre)
    = Ok opre ->
  result (render (S (S n)) fs path ctx stack) =
  Raise (IsADirectoryError
           (os_error "[Errno 21] Is a directory" (joinpath T rel))).
Proof.
  intros Hin Hnew Hfs Hd Hdir Hpre.
  rewrite (render_result _ _ _ _ _ _ _ Hin Hfs).
  rewrite (sub_app_match _ _ include_match_iff include_braces _ rel d post Hd).
  rewrite !result_bind, Hpre.
  unfold include_replacer at 1, path_exists. rewrite Hdir.
  rewrite result_bind, render_result_Dir; [done| |done].
  intros [H|H%list_elem_of_singleton]%elem_of_app; [done|].
  rewrite H in Hdir. congruence.
Qed.

(** X6: an exception raised by the render of an included template, the
    directives before it being expanded without error, ends the including
    call with the same exception. *)
Theorem included_error_propagates n (fs : gmap Path entry) path ctx stack
    pre rel d post opre e :
  path ∉ stack ->
  fs !! path = Some (File (pre ++ d ++ post)) ->
  is_include_directive rel d ->
  is_Some (fs !! joinpath T rel) ->
  result (sub INCLUDE_RE (include_replacer ROOT_DIR n fs path ctx stack) pre)
    = Ok opre ->
  result (render n fs (joinpath T rel) ctx (stack ++ [path])) = Raise e ->
  result (render (S n) fs path ctx stack) = Raise e.
Proof.
  intros Hin Hfs Hd [x Hx] Hpre He.
  rewrite (render_result _ _ _ _ _ _ _ Hin Hfs).
  rewrite (sub_app_match _ _ include_match_iff include_braces _ rel d post Hd).
  rewrite !result_bind, Hpre.
  unfold include_replacer at 1, path_exists.
  by rewrite Hx, result_bind, He.
Qed.

(** X7: the text that an included template renders to is scanned for
    placeholders again by the including call: for a template with one
    include directive, the result is the variable pass of the including
    call over its text with the directive replaced by the rendered text of
    the included template. *)
Theorem included_output_is_rescanned n (fs : gmap Path entry) path ctx stack
    pre rel d post r :
  path ∉ stack ->
  fs !! path = Some (File (pre ++ d ++ post)) ->
  no_include pre -> no_include post ->
  is_include_directive rel d ->
  is_Some (fs !! joinpath T rel) ->
  result (render n fs (joinpath T rel) ctx (stack ++ [path])) = Ok r ->
  result (render (S n) fs path ctx stack) =
  result (sub VAR_RE (var_replacer ctx path) (pre ++ r ++ post)).
Proof.
  intros Hin Hfs Hpre Hpost Hd [x Hx] Hr.
  rewrite (render_result _ _ _ _ _ _ _ Hin Hfs).
  rewrite (sub_app_match _ _ include_match_iff include_braces _ rel d post Hd).
  rewrite (sub_no_include _ _ Hpre), (sub_no_include _ _ Hpost).
  rewrite bind_ret_l.
  unfold include_replacer at 1, path_exists. rewrite Hx.
  rewrite !result_bind, Hr. by rewrite bind_ret_l.
Qed.

End more_includes.

Lemma relative_includes_never_ValueError_witness :
  relative_includes fs_cycles /\
  result (_render_template ex_root 5 fs_cycles (tpl "b.html") ∅ [])
    <> Raise (ValueError []).
Proof.
  assert (relative_includes fs_cycles) as Hrel
    by (apply all_relative_spec; vm_compute; reflexivity).
  split; [exact Hrel|].
  apply (relative_includes_never_ValueError ex_root fs_cycles (tpl "b.html") ∅ 5 []
           Hrel).
  eexists. vm_compute. reflexivity.
Defined.

Lemma include_of_directory_raises_witness :
  joinpath (TEMPLATES_DIR ex_root) (lit ".") = TEMPLATES_DIR ex_root /\
  result (_render_template ex_root 2 fs_edge (tpl "dir.html") ∅ []) =
  Raise (IsADirectoryError
           (os_error "[Errno 21] Is a directory"
              (joinpath (TEMPLATES_DIR ex_root) (lit ".")))).
Proof.
  split; [vm_compute; reflexivity|].
  apply (include_of_directory_raises ex_root 0 fs_edge (tpl "dir.html") ∅ []
           [] (lit ".") (lit "{{include: .}}") [] []).
  - apply not_elem_of_nil.
  - apply not_elem_of_nil.
  - vm_compute. reflexivity.
  - exists [], [32], []. repeat split; try done; repeat constructor.
  - vm_compute. reflexivity.
  - vm_compute. reflexivity.
Defined.

Lemma included_error_propagates_witness :
  result (_render_template ex_root 2 fs_edge (tpl "err.html") ∅ []) =
  Raise (KeyError
           (lit "Missing template variable 'undefined' for /srv/site/templates/bad.html")).
Proof.
  apply (included_error_propagates ex_root 1 fs_edge (tpl "err.html") ∅ []
           (lit "a") (lit "bad.html") (lit "{{include: bad.html}}") (lit "b")
           (lit "a")).
  - apply not_elem_of_nil.
  - vm_compute. reflexivity.
  - exists [], [32], []. repeat split; try done; repeat constructor.
  - eexists. vm_compute. reflexivity.
  - vm_compute. reflexivity.
  - vm_compute. reflexivity.
Defined.

Lemma included_output_is_rescanned_witness :
  result (_render_template ex_root 1 fs_edge (tpl "inner.html") ctx_edge
            [tpl "outer.html"]) = Ok (lit "{{name}}") /\
  result (_render_template ex_root 2 fs_edge (tpl "outer.html") ctx_edge []) =
  result (sub VAR_RE (var_replacer ctx_edge (tpl "outer.html"))
            (lit "[" ++ lit "{{name}}" ++ lit "]")) /\
  result (sub VAR_RE (var_replacer ctx_edge (tpl "outer.html"))
            (lit "[" ++ lit "{{name}}" ++ lit "]")) = Ok (lit "[World]").
Proof.
  split; [vm_compute; reflexivity|]. split; [|vm_compute; reflexivity].
  apply (included_output_is_rescanned ex_root 1 fs_edge (tpl "outer.html")
           ctx_edge [] (lit "[") (lit "inner.html")
           (lit "{{include: inner.html}}") (lit "]") (lit "{{name}}")).
  - apply not_elem_of_nil.
  - vm_compute. reflexivity.
  - apply no_include_findall. vm_compute. reflexivity.
  - apply no_include_findall. vm_compute. reflexivity.
  - exists [], [32], []. repeat split; try done; repeat constructor.
  - eexists. vm_compute. reflexivity.
  - vm_compute. reflexivity.
Defined.

(** ** Larger contexts and file systems *)

Lemma sub_from_agree_ok p repl1 repl2 : forall s k,
  (forall g, g ∈ findall_from p k s ->
     is_ok (result (repl1 g)) = true -> repl2 g = repl1 g) ->
  is_ok (result (sub_from p repl1 k s)) = true ->
  sub_from p repl2 k s = sub_from p repl1 k s.
Proof.
  induction s as [|c s IH]; intros k Hag Hok; simpl in *; [done|].
  destruct k as [|k]; [|by apply IH].
  destruct (re_match p (c :: s) []) as [[g rest]|].
  - rewrite result_bind in Hok.
    assert (is_ok (result (repl1 g)) = true) as Hg
      by (by destruct (result (repl1 g))).
    rewrite (Hag g) by (done || by left).
    destruct (repl1 g) as [l [r|e|]]; simpl in *; try done.
    rewrite result_bind in Hok.
    rewrite IH; [done| |].
    + intros g' Hg'. apply Hag. by right.
    + by destruct (result (sub_from p repl1 _ s)).
  - rewrite result_bind in Hok. rewrite IH; [done|done|].
    by destruct (result (sub_from p repl1 0 s)).
Qed.

Lemma sub_agree_ok p repl1 repl2 s :
  (forall g, g ∈ findall p s ->
     is_ok (result (repl1 g)) = true -> repl2 g = repl1 g) ->
  is_ok (result (sub p repl1 s)) = true ->
  sub p repl2 s = sub p repl1 s.
Proof. apply sub_from_agree_ok. Qed.

Section extension.

Variable ROOT_DIR : Path.

Abbreviation T := (TEMPLATES_DIR ROOT_DIR).
Abbreviation render := (_render_template ROOT_DIR).

Lemma render_extend (fs fs' : gmap Path entry) (ctx ctx' : gmap (list N) (list N))
    (Hfs : fs ⊆ fs') (Hctx : ctx ⊆ ctx') n :
  forall path stack,
  is_ok (result (render n fs path ctx stack)) = true ->
  render n fs' path ctx' stack = render n fs path ctx stack.
Proof.
  induction n as [|n IH]; intros path stack Hok; [done|].
  destruct (render_ok_passes _ _ _ _ _ _ Hok) as (Hin & text & Htext).
  pose proof (lookup_weaken _ _ _ _ Htext Hfs) as Htext'.
  rewrite (render_result _ _ _ _ _ _ _ Hin Htext), result_bind in Hok.
  rewrite (render_passes _ _ _ _ _ _ _ Hin Htext).
  rewrite (render_passes _ _ _ _ _ _ _ Hin Htext').
  rewrite (sub_agree_ok INCLUDE_RE
             (include_replacer ROOT_DIR n fs path ctx stack)
             (include_replacer ROOT_DIR n fs' path ctx' stack)).
  - destruct (sub INCLUDE_RE _ text) as [l [text'| |]]; simpl in *; try done.
    rewrite (sub_agree_ok VAR_RE (var_replacer ctx path)
               (var_replacer ctx' path)); [done| |done].
    intros g _. unfold var_replacer.
    destruct (ctx !! g) as [v|] eqn:Hg; [|done].
    by rewrite (lookup_weaken _ _ _ _ Hg Hctx).
  - intros g _. unfold include_replacer, path_exists.
    destruct (fs !! joinpath T g) as [x|] eqn:Hg; [|done].
    rewrite (lookup_weaken _ _ _ _ Hg Hfs). apply IH.
  - by destruct (result (sub INCLUDE_RE _ text)).
Qed.

(** X8: a render that succeeds is not changed by more files in the file
    system or more variables in the context: with a file system and a
    context that extend the given ones it makes the same calls and reads
    and returns the same text. *)
Theorem successful_render_is_stable (fs fs' : gmap Path entry)
    (ctx ctx' : gmap (list N) (list N)) n path out :
  (fs ⊆ fs') -> (ctx ⊆ ctx') ->
  result (render n fs path ctx []) = Ok out ->
  render n fs' path ctx' [] = render n fs path ctx [].
Proof.
  intros Hfs Hctx Hres. apply render_extend; [done|done|]. by rewrite Hres.
Qed.

End extension.

Lemma successful_render_is_stable_witness :
  _render_template ex_root 1
    (<[tpl "unused.html" := File (lit "{{x}}")]> fs_pages) (tpl "page.html")
    (<[lit "unused" := lit "u"]> ctx_hello) [] =
  _render_template ex_root 1 fs_pages (tpl "page.html") ctx_hello [].
Proof.
  apply (successful_render_is_stable ex_root fs_pages _ ctx_hello _ 1
           (tpl "page.html") (lit "Hello World!")).
  - apply insert_subseteq. vm_compute. reflexivity.
  - apply insert_subseteq. vm_compute. reflexivity.
  - vm_compute. reflexivity.
Defined.

(** ** The stack as a chain of includes *)

Lemma include_chain_snoc ROOT_DIR fs : forall l p q,
  include_chain ROOT_DIR fs (l ++ [p]) ->
  includes ROOT_DIR fs p q ->
  include_chain ROOT_DIR fs ((l ++ [p]) ++ [q]).
Proof.
  induction l as [|a l IH]; intros p q Hch Hinc.
  - simpl. done.
  - destruct l as [|b l].
    + simpl in *. destruct Hch as [Hab _]. done.
    + simpl in Hch. destruct Hch as [Hab Hch].
      specialize (IH p q Hch Hinc). simpl in *. done.
Qed.

Section chains.

Variable ROOT_DIR : Path.

Abbreviation T := (TEMPLATES_DIR ROOT_DIR).
Abbreviation render := (_render_template ROOT_DIR).

Lemma render_chain (fs : gmap Path entry) root ctx n : forall path stack,
  head (stack ++ [path]) = Some root ->
  include_chain ROOT_DIR fs (stack ++ [path]) ->
  Forall (chain_event ROOT_DIR fs root) (trace (render n fs path ctx stack)).
Proof.
  induction n as [|n IH]; intros path stack Hhd Hch; [constructor|].
  rewrite render_unfold, trace_bind. simpl.
  constructor; [by split|].
  destruct (bool_decide (path ∈ stack)).
  - rewrite trace_bind, mapM_rel_str_trace. simpl.
    destruct (result _); constructor.
  - rewrite trace_bind. apply Forall_app. split.
    { unfold read_text. rewrite trace_bind. simpl. constructor; [done|].
      destruct (fs !! path) as [[]|]; constructor. }
    unfold read_text. rewrite result_bind. simpl.
    destruct (fs !! path) as [[|text]|] eqn:Hfs; simpl; try constructor.
    rewrite trace_bind. apply Forall_app. split.
    + apply sub_trace_in. intros g Hg. unfold include_replacer.
      destruct (path_exists _ _); [|constructor].
      apply IH.
      * destruct stack; simpl in *; done.
      * apply include_chain_snoc; [done|]. by eapply includes_findall.
    + destruct (result _); try constructor.
      rewrite var_pass_trace. constructor.
Qed.

(** X9: in a top-level render every call of the renderer receives as stack
    the chain of includes that leads to it: the stack with the path of the
    call starts with the root template, and each of its paths is a file
    with an include directive for the next one. *)
Theorem render_stack_is_include_chain (fs : gmap Path entry) root ctx n :
  Forall (chain_event ROOT_DIR fs root) (trace (render n fs root ctx [])).
Proof. by apply render_chain. Qed.

Lemma render_depth (fs : gmap Path entry) ctx n : forall path stack,
  NoDup stack ->
  (forall q, q ∈ stack -> is_Some (fs !! q)) ->
  Forall (depth_event fs) (trace (render n fs path ctx stack)).
Proof.
  induction n as [|n IH]; intros path stack Hnd Hex; [constructor|].
  rewrite render_unfold, trace_bind. simpl.
  constructor; [by apply stack_bound|].
  destruct (bool_decide (path ∈ stack)) eqn:Hin.
  - rewrite trace_bind, mapM_rel_str_trace. simpl.
    destruct (result _); constructor.
  - apply bool_decide_eq_false in Hin.
    rewrite trace_bind. apply Forall_app. split.
    { unfold read_text. rewrite trace_bind. simpl. constructor; [done|].
      destruct (fs !! path) as [[]|]; constructor. }
    unfold read_text. rewrite result_bind. simpl.
    destruct (fs !! path) as [[|text]|] eqn:Hfs; simpl; try constructor.
    rewrite trace_bind. apply Forall_app. split.
    + apply sub_trace_Forall. intros g. unfold include_replacer.
      destruct (path_exists _ _); [|constructor].
      apply IH.
      * apply NoDup_app. split; [done|]. split; [|apply NoDup_singleton].
        by intros x Hx ->%list_elem_of_singleton.
      * intros q [Hq| ->%list_elem_of_singleton]%elem_of_app; [auto|].
        by rewrite Hfs.
    + destruct (result _); try constructor.
      rewrite var_pass_trace. constructor.
Qed.

(** X10: the depth of the recursion is bounded by the file system: in a
    top-level render no call receives a stack longer than the number of
    entries of the file system. *)
Theorem render_depth_bounded (fs : gmap Path entry) root ctx n :
  Forall (depth_event fs) (trace (render n fs root ctx [])).
Proof.
  apply render_depth; [apply NoDup_nil_2|]. by intros q ?%elem_of_nil.
Qed.

End chains.

(** ** The two patterns *)

(** X11: [INCLUDE_RE] matches at the start of a text exactly when the text
    starts with an include directive, two opening braces, optional
    whitespace, [include:], optional whitespace, a non-empty path of
    letters, digits and [_ . / -], optional whitespace and two closing
    braces; the group is the path and the match ends with the directive. *)
Theorem include_pattern_matches_directives s rel rest :
  re_match INCLUDE_RE s [] = Some (rel, rest) <->
  exists d, is_include_directive rel d /\ s = d ++ rest.
Proof. apply include_match_iff. Qed.

(** X12: [VAR_RE] matches at the start of a text exactly when the text
    starts with a placeholder, two opening braces, optional whitespace, a
    non-empty identifier of letters, digits and [_], optional whitespace
    and two closing braces; the group is the identifier and the match ends
    with the placeholder. *)
Theorem variable_pattern_matches_placeholders s k rest :
  re_match VAR_RE s [] = Some (k, rest) <->
  exists ph, is_placeholder k ph /\ s = ph ++ rest.
Proof. apply var_match_iff. Qed.

Lemma span_unique cls : forall a1 a2 b1 b2,
  all_in cls a1 -> all_in cls a2 -> stops cls b1 -> stops cls b2 ->
  a1 ++ b1 = a2 ++ b2 -> a1 = a2 /\ b1 = b2.
Proof.
  induction a1 as [|x a1 IH]; intros a2 b1 b2 H1 H2 S1 S2 Heq.
  - destruct a2 as [|y a2]; [done|]. simpl in Heq. subst b1.
    apply Forall_cons in H2 as [Hy _]. simpl in S1. congruence.
  - apply Forall_cons in H1 as [Hx H1]. destruct a2 as [|y a2].
    + simpl in Heq. subst b2. simpl in S2. congruence.
    + apply Forall_cons in H2 as [Hy H2]. injection Heq as -> Heq.
      destruct (IH _ _ _ H1 H2 S1 S2 Heq) as [-> ->]. done.
Qed.

(** X13: an include directive is not a placeholder: [VAR_RE] does not
    match at the start of an include directive, so a directive that the
    variable pass meets is copied and raises no missing-variable error. *)
Theorem directive_is_not_placeholder rel d rest :
  is_include_directive rel d ->
  re_match VAR_RE (d ++ rest) [] = None.
Proof.
  intros (w1 & w2 & w3 & -> & Hw1 & Hw2 & Hw3 & Hne & Hrel).
  destruct (re_match VAR_RE _ []) as [[k rest']|] eqn:Hm; [exfalso|done].
  apply var_match_iff in Hm as (ph & (v1 & v2 & -> & Hv1 & Hv2 & Hk & Hid) & Heq).
  rewrite <- !app_assoc in Heq.
  change (lit "include:") with (lit "include" ++ [58]) in Heq.
  rewrite <- !app_assoc in Heq.
  apply (app_inv_head [lbrace; lbrace]) in Heq.
  apply span_unique with (cls := isspace) in Heq as [_ Heq]; try done.
  2: { eapply stops_app_nonempty; [apply ident_not_space|done|done]. }
  apply span_unique with (cls := is_ident_char) in Heq as [_ Heq]; try done.
  - destruct v2 as [|x v2].
    + discriminate Heq.
    + injection Heq as <- _. by apply Forall_cons in Hv2 as [Hx _].
  - unfold all_in. repeat constructor.
  - eapply stops_app_all; [apply space_not_ident|done|done].
Qed.

Lemma directive_is_not_placeholder_witness :
  is_include_directive (lit "a.html") (lit "{{include: a.html}}") /\
  re_match VAR_RE (lit "{{include: a.html}}" ++ lit " tail") [] = None.
Proof.
  assert (is_include_directive (lit "a.html") (lit "{{include: a.html}}")) as H.
  { exists [], [32], []. repeat split; try done; repeat constructor. }
  split; [exact H|].
  exact (directive_is_not_placeholder _ _ (lit " tail") H).
Defined.

(** ** Page contexts and templates *)

Lemma page_context_keys asset_prefix page_title page_description current :
  Forall (fun k =>
            is_Some (_page_context asset_prefix page_title page_description
                       current !! k))
    schema_keys.
Proof.
  unfold _page_context, current_attrs, schema_keys.
  destruct (bool_decide (lit "home" = current));
    destruct (bool_decide (lit "motorists" = current));
    destruct (bool_decide (lit "law" = current));
    repeat (apply List.Forall_cons; [eexists; vm_compute; reflexivity|]);
    apply List.Forall_nil.
Qed.

(** X14: the keys of a page context are the same 23 keys whatever the
    arguments of [_page_context]: the seven keys of the page and, for each
    region and navigation item, its [_aria] and [_current_class] keys. *)
Theorem page_context_has_schema_keys asset_prefix page_title page_description
    current k :
  is_Some (_page_context asset_prefix page_title page_description current !! k)
  <-> k ∈ schema_keys.
Proof.
  split.
  - intros Hk. destruct (decide (k ∈ schema_keys)) as [|Hnot]; [done|].
    exfalso. revert Hk. unfold _page_context, current_attrs.
    destruct (bool_decide (lit "home" = current));
      destruct (bool_decide (lit "motorists" = current));
      destruct (bool_decide (lit "law" = current));
      rewrite not_elem_of_list_to_map_1 by exact Hnot;
      by intros [? ?].
  - intros Hk.
    pose proof (page_context_keys asset_prefix page_title page_description
                  current) as H.
    rewrite Forall_forall in H. by apply H.
Qed.

Section schema_render.

Variable ROOT_DIR : Path.

Abbreviation render := (_render_template ROOT_DIR).

(** X15: a template without include directive whose placeholders all have
    identifiers among the keys of the page contexts renders without error
    with every page context. *)
Theorem schema_template_renders n (fs : gmap Path entry) path text
    asset_prefix page_title page_description current :
  fs !! path = Some (File text) ->
  no_include text ->
  (forall k ph, is_placeholder k ph -> occurs_in ph text -> k ∈ schema_keys) ->
  exists out,
    result (render (S n) fs path
              (_page_context asset_prefix page_title page_description current) [])
    = Ok out.
Proof.
  intros Hfs Hni Hkeys.
  destruct (all_keys_Substituted
              (_page_context asset_prefix page_title page_description current)
              text) as [out Hout].
  { intros k (ph & Hph & Hocc)%placeholder_findall.
    pose proof (page_context_keys asset_prefix page_title page_description
                  current) as H.
    rewrite Forall_forall in H. apply H. eauto. }
  exists out.
  rewrite (render_result _ _ _ _ _ _ text) by (done || apply not_elem_of_nil).
  rewrite (sub_no_include _ _ Hni), bind_ret_l.
  by rewrite (sub_vars_complete _ _ _ _ Hout).
Qed.

End schema_render.

Lemma schema_template_renders_witness :
  exists out,
    result (_render_template ex_root 1 fs_site (tpl "partials/head.html")
              (_page_context [] (lit "Title") (lit "Text") (lit "law")) [])
    = Ok out.
Proof.
  apply (schema_template_renders ex_root 0 fs_site (tpl "partials/head.html")
           (lit "<title>{{ page_title }}</title><a{{nav_home_aria}}>Home</a>")).
  - vm_compute. reflexivity.
  - apply no_include_findall. vm_compute. reflexivity.
  - intros k ph Hph Hocc.
    assert (k ∈ findall VAR_RE
              (lit "<title>{{ page_title }}</title><a{{nav_home_aria}}>Home</a>"))
      as Hin by (apply placeholder_findall; eauto).
    vm_compute in Hin. apply list_elem_of_In in Hin. apply list_elem_of_In.
    vm_compute. simpl in Hin. intuition.
Defined.

(** ** Further properties of the page builder *)

Lemma rstrip_spaces ws : forallb isspace ws = true -> rstrip ws = [].
Proof.
  induction ws as [|c ws IH]; [done|]. simpl.
  intros [Hc Hws]%andb_true_iff. by rewrite (IH Hws), Hc.
Qed.

Lemma rstrip_app_spaces s ws :
  forallb isspace ws = true -> rstrip (s ++ ws) = rstrip s.
Proof.
  intros Hws. induction s as [|c s IH]; simpl.
  - by apply rstrip_spaces.
  - by rewrite IH.
Qed.

Lemma rstrip_idempotent s : rstrip (rstrip s) = rstrip s.
Proof.
  induction s as [|c s IH]; [done|]. simpl.
  destruct (rstrip s) as [|x r] eqn:Hr.
  - destruct (isspace c) eqn:Hc; [done|]. simpl. by rewrite Hc.
  - change (rstrip (c :: x :: r))
      with (match rstrip (x :: r) with
            | [] => if isspace c then [] else [c]
            | r' => c :: r'
            end).
    by rewrite IH.
Qed.

(** X16: the output text of a page is stable: the text written for a
    rendered text (its right-stripped form and a newline), taken as
    rendered text again, gives the same output text; and a rendered text
    that is empty or all whitespace is written as a single newline. *)
Theorem page_text_is_stable rendered :
  page_text (page_text rendered) = page_text rendered /\
  (forallb isspace rendered = true -> page_text rendered = newline).
Proof.
  unfold page_text. split.
  - by rewrite rstrip_app_spaces, rstrip_idempotent.
  - intros H. by rewrite rstrip_spaces.
Qed.

Section more_main.

Variable ROOT_DIR : Path.

Abbreviation render := (_render_template ROOT_DIR).

(** X17: a build that completes leaves every path of the file system
    other than the three output paths as it was. *)
Theorem main_changes_only_outputs fuel (fs fs' : gmap Path entry) p :
  result (main ROOT_DIR fuel fs) = Ok fs' ->
  p ∉ map output (pages ROOT_DIR) ->
  fs' !! p = fs !! p.
Proof. apply build_pages_other. Qed.

Lemma build_pages_app fuel : forall ps qs fs,
  build_pages ROOT_DIR fuel fs (ps ++ qs) =
  let* fs1 := build_pages ROOT_DIR fuel fs ps in
  build_pages ROOT_DIR fuel fs1 qs.
Proof.
  induction ps as [|pg ps IH]; intros qs fs; simpl.
  - by destruct (build_pages ROOT_DIR fuel fs qs).
  - rewrite bind_assoc.
    destruct (build_page ROOT_DIR fuel fs pg) as [l [fs1| |]]; simpl; try done.
    by rewrite IH.
Qed.

(** X18: when the render of a page fails, the pages before it being built,
    the build ends with the exception of that render: the page is not
    written, nothing is printed for it, and the pages after it are neither
    rendered nor written. *)
Theorem failed_render_stops_build fuel (fs fs1 : gmap Path entry)
    before pg after e :
  result (build_pages ROOT_DIR fuel fs before) = Ok fs1 ->
  result (render fuel fs1 (template pg) (context pg) []) = Raise e ->
  build_pages ROOT_DIR fuel fs (before ++ pg :: after) =
  (trace (build_pages ROOT_DIR fuel fs before)
     ++ trace (render fuel fs1 (template pg) (context pg) []),
   Raise e).
Proof.
  intros Hbefore Hrender. rewrite build_pages_app.
  destruct (build_pages ROOT_DIR fuel fs before) as [l r].
  simpl in Hbefore. subst r. simpl. unfold build_page.
  destruct (render fuel fs1 (template pg) (context pg) []) as [l' r'].
  simpl in Hrender. subst r'. done.
Qed.

(** X19: the builder does not create directories: when the render of a
    page succeeds and neither the output path nor its directory exists,
    the build of the page raises [FileNotFoundError] for the output path
    ([NotADirectoryError] when the output path lies below a regular file)
    and writes nothing. *)
Theorem missing_output_directory_raises fuel (fs : gmap Path entry) pg text :
  result (render fuel fs (template pg) (context pg) []) = Ok text ->
  fs !! output pg = None ->
  fs !! parent (output pg) = None ->
  build_page ROOT_DIR fuel fs pg =
  (trace (render fuel fs (template pg) (context pg) []),
   Raise (if below_file fs (output pg) then
            NotADirectoryError
              (os_error "[Errno 20] Not a directory" (output pg))
          else
            FileNotFoundError
              (os_error "[Errno 2] No such file or directory" (output pg)))).
Proof.
  intros Hrender Hout Hparent. unfold build_page.
  destruct (render fuel fs (template pg) (context pg) []) as [l r].
  simpl in Hrender. subst r. simpl.
  unfold write_text. rewrite Hout, Hparent. simpl. by rewrite app_nil_r.
Qed.

Lemma build_page_prints fuel (fs fs' : gmap Path entry) pg :
  result (build_page ROOT_DIR fuel fs pg) = Ok fs' ->
  prints_of (trace (build_page ROOT_DIR fuel fs pg)) = [report ROOT_DIR pg].
Proof.
  unfold build_page. intros H.
  rewrite trace_bind, prints_of_app.
  rewrite (prints_of_reads _ (render_trace_reads ROOT_DIR _ _ _ _ _)).
  apply result_bind_Ok in H as (text & Hr & H). rewrite Hr.
  rewrite trace_bind, prints_of_app.
  apply result_bind_Ok in H as (fs1 & Hw & H).
  pose proof Hw as Hw'. apply write_text_Ok in Hw' as [_ Htr].
  rewrite Htr, Hw.
  rewrite trace_bind, rel_str_trace.
  apply result_bind_Ok in H as (r1 & H1 & H). rewrite H1.
  rewrite trace_bind, rel_str_trace.
  apply result_bind_Ok in H as (r2 & H2 & H). rewrite H2.
  apply rel_str_result in H1 as ->. apply rel_str_result in H2 as ->.
  reflexivity.
Qed.

Lemma build_pages_prints fuel ps : forall (fs fs' : gmap Path entry),
  result (build_pages ROOT_DIR fuel fs ps) = Ok fs' ->
  prints_of (trace (build_pages ROOT_DIR fuel fs ps)) = map (report ROOT_DIR) ps.
Proof.
  induction ps as [|pg ps IH]; intros fs fs' H; [done|].
  simpl in *. rewrite trace_bind, prints_of_app.
  apply result_bind_Ok in H as (fs1 & H1 & H). rewrite H1.
  by rewrite (build_page_prints _ _ _ _ H1), (IH _ _ H).
Qed.

Lemma relative_to_joinpath2 base a b :
  head a <> Some slash -> head b <> Some slash ->
  relative_to (joinpath (joinpath base a) b) base =
  Some (mkPath 0 (parse_parts a ++ parse_parts b)).
Proof.
  intros Ha Hb. unfold joinpath.
  rewrite (parse_anchor_relative _ Ha), (parse_anchor_relative _ Hb).
  destruct base as [an ps]. simpl. rewrite <- app_assoc.
  apply relative_to_app.
Qed.

(** X20: a build that completes has printed one line for each page, in the
    order of the pages, which names the output file and the template by
    their paths relative to the repository: the [relative_to] calls of
    [main] do not fail, wherever the repository lies. *)
Theorem main_reports_each_page fuel (fs fs' : gmap Path entry) :
  result (main ROOT_DIR fuel fs) = Ok fs' ->
  prints_of (trace (main ROOT_DIR fuel fs)) = [
    lit "Rendered index.html from templates/pages/home.html";
    lit "Rendered motorists/index.html from templates/pages/motorists.html";
    lit "Rendered law-enforcement/index.html from templates/pages/law_enforcement.html"
  ].
Proof.
  intros H. unfold main in *. rewrite (build_pages_prints _ _ _ _ H).
  unfold pages, report, rel_name, TEMPLATES_DIR. simpl map.
  cbn [output template].
  rewrite !relative_to_joinpath, !relative_to_joinpath2 by done.
  reflexivity.
Qed.

End more_main.

Lemma main_changes_only_outputs_witness :
  match result (main ex_root 3 fs_site) with
  | Ok fs' =>
      fs' !! tpl "partials/head.html" = fs_site !! tpl "partials/head.html"
  | _ => False
  end.
Proof.
  pose proof site_builds as Hok.
  destruct (result (main ex_root 3 fs_site)) as [fs'| |] eqn:H.
  - apply (main_changes_only_outputs ex_root 3 fs_site fs' _ H).
    intros Hin%list_elem_of_In. vm_compute in Hin.
    intuition discriminate.
  - discriminate Hok.
  - discriminate Hok.
Defined.

Lemma failed_render_stops_build_witness :
  result (main ex_root 3 ∅) =
  Raise (FileNotFoundError
           (os_error "[Errno 2] No such file or directory"
              (tpl "pages/home.html"))) /\
  trace (main ex_root 3 ∅) =
  [Enter (tpl "pages/home.html") []; ReadText (tpl "pages/home.html")].
Proof.
  assert (main ex_root 3 ∅ =
          (trace (build_pages ex_root 3 ∅ [])
             ++ trace (_render_template ex_root 3 ∅ (template home_page)
                         (context home_page) []),
           Raise (FileNotFoundError
                    (os_error "[Errno 2] No such file or directory"
                       (tpl "pages/home.html"))))) as H.
  { apply (failed_render_stops_build ex_root 3 ∅ ∅ [] home_page
             (tail (pages ex_root))).
    - reflexivity.
    - vm_compute. reflexivity. }
  rewrite H. split; [reflexivity|]. vm_compute. reflexivity.
Defined.

Lemma missing_output_directory_raises_witness :
  fs_site_nodir !! parent (output motorists_page) = None /\
  result (build_page ex_root 3 fs_site_nodir motorists_page) =
  Raise (FileNotFoundError
           (lit "[Errno 2] No such file or directory: '/srv/site/motorists/index.html'")).
Proof.
  split; [vm_compute; reflexivity|].
  rewrite (missing_output_directory_raises ex_root 3 fs_site_nodir
             motorists_page
             (lit "<title>Traafik - Motorist</title><a>Home</a><h1>Motorists</h1>")).
  - vm_compute. reflexivity.
  - vm_compute. reflexivity.
  - vm_compute. reflexivity.
  - vm_compute. reflexivity.
Defined.

Lemma main_reports_each_page_witness :
  match result (main ex_root 3 fs_site) with
  | Ok _ =>
      prints_of (trace (main ex_root 3 fs_site)) = [
        lit "Rendered index.html from templates/pages/home.html";
        lit "Rendered motorists/index.html from templates/pages/motorists.html";
        lit "Rendered law-enforcement/index.html from templates/pages/law_enforcement.html"
      ]
  | _ => False
  end.
Proof.
  pose proof site_builds as Hok.
  destruct (result (main ex_root 3 fs_site)) as [fs'| |] eqn:H.
  - exact (main_reports_each_page ex_root 3 fs_site fs' H).
  - discriminate Hok.
  - discriminate Hok.
Defined.

(** ** The files read do not depend on the context *)

Lemma sub_from_trace_agree p repl1 repl2 : forall s k,
  (forall g, g ∈ findall_from p k s ->
     is_ok (result (repl1 g)) = true -> is_ok (result (repl2 g)) = true ->
     trace (repl1 g) = trace (repl2 g)) ->
  is_ok (result (sub_from p repl1 k s)) = true ->
  is_ok (result (sub_from p repl2 k s)) = true ->
  trace (sub_from p repl1 k s) = trace (sub_from p repl2 k s).
Proof.
  induction s as [|c s IH]; intros k Hag Hok1 Hok2; simpl in *; [done|].
  destruct k as [|k]; [|by apply IH].
  destruct (re_match p (c :: s) []) as [[g rest]|].
  - rewrite result_bind in Hok1, Hok2. rewrite !trace_bind.
    destruct (result (repl1 g)) as [r1| |] eqn:H1; try done.
    destruct (result (repl2 g)) as [r2| |] eqn:H2; try done.
    rewrite (Hag g) by (by left || by rewrite ?H1, ?H2).
    f_equal.
    rewrite result_bind in Hok1, Hok2. rewrite !trace_bind.
    rewrite (IH (length s - length rest)%nat).
    + destruct (result (sub_from p repl1 _ s)); try done.
      by destruct (result (sub_from p repl2 _ s)).
    + intros g' Hg'. apply Hag. by right.
    + by destruct (result (sub_from p repl1 _ s)).
    + by destruct (result (sub_from p repl2 _ s)).
  - rewrite result_bind in Hok1, Hok2. rewrite !trace_bind.
    rewrite (IH 0%nat); [|done| |].
    + destruct (result (sub_from p repl1 0 s)); try done.
      by destruct (result (sub_from p repl2 0 s)).
    + by destruct (result (sub_from p repl1 0 s)).
    + by destruct (result (sub_from p repl2 0 s)).
Qed.

Section context_free_reads.

Variable ROOT_DIR : Path.

Abbreviation T := (TEMPLATES_DIR ROOT_DIR).
Abbreviation render := (_render_template ROOT_DIR).

Lemma render_trace_context (fs : gmap Path entry)
    (ctx ctx' : gmap (list N) (list N)) n :
  forall path stack,
  is_ok (result (render n fs path ctx stack)) = true ->
  is_ok (result (render n fs path ctx' stack)) = true ->
  trace (render n fs path ctx stack) = trace (render n fs path ctx' stack).
Proof.
  induction n as [|n IH]; intros path stack Hok Hok'; [done|].
  destruct (render_ok_passes _ _ _ _ _ _ Hok) as (Hin & text & Htext).
  rewrite (render_result _ _ _ _ ctx _ _ Hin Htext), result_bind in Hok.
  rewrite (render_result _ _ _ _ ctx' _ _ Hin Htext), result_bind in Hok'.
  rewrite (render_passes _ _ _ _ ctx _ _ Hin Htext).
  rewrite (render_passes _ _ _ _ ctx' _ _ Hin Htext).
  rewrite !trace_bind. simpl. do 2 f_equal.
  destruct (result (sub INCLUDE_RE
                      (include_replacer ROOT_DIR n fs path ctx stack) text))
    as [t1| |] eqn:H1; try done.
  destruct (result (sub INCLUDE_RE
                      (include_replacer ROOT_DIR n fs path ctx' stack) text))
    as [t2| |] eqn:H2; try done.
  rewrite !var_pass_trace. f_equal.
  apply sub_from_trace_agree.
  - intros g _. unfold include_replacer.
    destruct (path_exists _ _); [apply IH|done].
  - unfold sub in H1. by rewrite H1.
  - unfold sub in H2. by rewrite H2.
Qed.

(** X22: the calls and the files read by a render do not depend on the
    context: two renders of the same template that succeed, with two
    contexts, have the same trace.  A context value that has the text of an
    include directive is not expanded. *)
Theorem reads_do_not_depend_on_context (fs : gmap Path entry)
    (ctx ctx' : gmap (list N) (list N)) n path out out' :
  result (render n fs path ctx []) = Ok out ->
  result (render n fs path ctx' []) = Ok out' ->
  trace (render n fs path ctx []) = trace (render n fs path ctx' []).
Proof.
  intros H H'. apply render_trace_context; by rewrite ?H, ?H'.
Qed.

(** X21: the top-level template is read without an existence test: a
    render of a path that does not exist ends with the error of the read,
    [NotADirectoryError] when the path lies below a regular file and
    [FileNotFoundError] otherwise, not with the message of a missing
    include. *)
Theorem missing_template_raises_os_error n (fs : gmap Path entry) path ctx :
  fs !! path = None ->
  result (render (S n) fs path ctx []) =
  Raise (if below_file fs path then
           NotADirectoryError (os_error "[Errno 20] Not a directory" path)
         else
           FileNotFoundError
             (os_error "[Errno 2] No such file or directory" path)).
Proof.
  intros H. rewrite render_result_absent; [|apply not_elem_of_nil|done].
  unfold absent_error. by destruct (below_file fs path).
Qed.

End context_free_reads.

Lemma reads_do_not_depend_on_context_witness :
  result (_render_template ex_root 2 fs_edge (tpl "outer.html") ctx_inject [])
    = Ok (lit "[{{include: bad.html}}]") /\
  trace (_render_template ex_root 2 fs_edge (tpl "outer.html") ctx_edge []) =
  trace (_render_template ex_root 2 fs_edge (tpl "outer.html") ctx_inject []) /\
  reads_of (tpl "bad.html")
    (trace (_render_template ex_root 2 fs_edge (tpl "outer.html") ctx_inject []))
    = 0%nat.
Proof.
  split; [vm_compute; reflexivity|]. split; [|vm_compute; reflexivity].
  apply (reads_do_not_depend_on_context ex_root fs_edge ctx_edge ctx_inject 2
           (tpl "outer.html") (lit "[World]") (lit "[{{include: bad.html}}]")).
  - vm_compute. reflexivity.
  - vm_compute. reflexivity.
Defined.

Lemma missing_template_raises_os_error_witness :
  result (_render_template ex_root 1 fs_edge (tpl "none.html") ∅ []) =
  Raise (FileNotFoundError
           (lit "[Errno 2] No such file or directory: '/srv/site/templates/none.html'")) /\
  result (_render_template ex_root 1 fs_pages (tpl "part.html/x") ∅ []) =
  Raise (NotADirectoryError
           (lit "[Errno 20] Not a directory: '/srv/site/templates/part.html/x'")).
Proof.
  split.
  - rewrite (missing_template_raises_os_error ex_root 0 fs_edge
               (tpl "none.html") ∅).
    + vm_compute. reflexivity.
    + vm_compute. reflexivity.
  - rewrite (missing_template_raises_os_error ex_root 0 fs_pages
               (tpl "part.html/x") ∅).
    + vm_compute. reflexivity.
    + vm_compute. reflexivity.
Defined.
